(** * A conversational relay bot: history store, access control, event
      filter and message handlers of [bot/gpt_telegram_bot.py].

    The Python module keeps one process-wide dict, [messages_list], from a
    username to a list object of turns.  The embedding keeps the dict and
    the list objects apart: the dict maps a username to the identity of a
    list object, and a heap maps identities to contents, so that "the same
    list object" and "cleared in place" can be stated.  Functions that touch
    this state or call the chat transport or the remote services are written
    in a small state-and-exception monad.  One run of a handler is modelled
    from its first line to its last; runs of other handlers in between are
    not. *)

From Stdlib Require Import ZArith Ascii String.
From stdpp Require Import gmap strings list fin_maps.

Local Open Scope Z_scope.
Set Warnings "-register-all,-clear-no-such-hyp".

(** ** Python strings *)

(** A Python [str] is a sequence of Unicode code points; [len] counts code
    points. *)
Abbreviation str := (list N).

(** An ASCII literal as a [str]. *)
Definition py (s : string) : str := N_of_ascii <$> list_ascii_of_string s.
Arguments py s%_string.

Definition len {A} (l : list A) : Z := Z.of_nat (length l).

(** ** Exceptions and results *)

Inductive exn :=
  | IndexError
  | KeyError
  | TypeError
  | AttributeError
  | OpenAITimeout            (* openai.error.Timeout *)
  | OpenAIAPIError           (* openai.error.APIError: malformed response *)
  | OpenAIConnectionError    (* openai.error.APIConnectionError *)
  | OpenAIInvalidRequest     (* openai.error.InvalidRequestError *)
  | OpenAIRateLimit          (* openai.error.RateLimitError *)
  | OpenAIUnavailable        (* openai.error.ServiceUnavailableError *)
  | TelegramError            (* telegram.error.TelegramError *)
  | OtherException (name : str)
  | KeyboardInterrupt        (* BaseException, not an Exception *)
  | SystemExit.              (* BaseException, not an Exception *)

(** What [except Exception] catches. *)
Definition is_Exception (e : exn) : bool :=
  match e with
  | KeyboardInterrupt | SystemExit => false
  | _ => true
  end.

Inductive result (A : Type) :=
  | Ok (a : A)
  | Raise (e : exn).
Arguments Ok {A} a.
Arguments Raise {A} e.

(** ** Data model *)

(** [{"role": role, "content": content}] *)
Record Turn := { role : str; content : str }.

(** Identity of a Python list object. *)
Abbreviation loc := positive.

(** What a handler does to the outside world, in order. *)
Inductive Action :=
  | LogInfo (text : str)
  | SendMessage (chat_id : Z) (text : str)
  | DeleteMessage (message_id chat_id : Z)
  | ChatCompletionCreate (model : str) (n : Z) (messages : list Turn)
                         (timeout request_timeout : Z)
  | DownloadAudio
  | ConvertAudioToWav (file : str)
  | AudioTranscribe (model : str) (voice : str).

Record World := {
  messages_list : gmap str loc;      (* messages_list = {} *)
  heap : gmap loc (list Turn);       (* contents of the list objects *)
  trace : list Action
}.

Definition init : World := {| messages_list := ∅; heap := ∅; trace := [] |}.

(** The history stored for a username, if any. *)
Definition history (w : World) (username : str) : option (list Turn) :=
  messages_list w !! username ≫= λ l, heap w !! l.

(** The conversation table: username to contents. *)
Definition table (w : World) : gmap str (list Turn) :=
  omap (λ l, heap w !! l) (messages_list w).

(** Every stored list object exists, and no two usernames share one. *)
Definition wf (w : World) : Prop :=
  (∀ u l, messages_list w !! u = Some l → is_Some (heap w !! l))
  ∧ (∀ u1 u2 l, messages_list w !! u1 = Some l →
                messages_list w !! u2 = Some l → u1 = u2).

(** ** The monad *)

Definition M (A : Type) : Type := World → result A * World.

Definition ret {A} (a : A) : M A := λ w, (Ok a, w).

Definition raise {A} (e : exn) : M A := λ w, (Raise e, w).

Definition bind {A B} (m : M A) (k : A → M B) : M B :=
  λ w, match m w with
       | (Ok a, w') => k a w'
       | (Raise e, w') => (Raise e, w')
       end.

(** [try: m except Exception as e: h e] *)
Definition try_except {A} (m : M A) (h : exn → M A) : M A :=
  λ w, match m w with
       | (Ok a, w') => (Ok a, w')
       | (Raise e, w') => if is_Exception e then h e w' else (Raise e, w')
       end.

Definition lift {A} (r : result A) : M A := λ w, (r, w).

Notation "x <- c1 ;; c2" := (bind c1 (λ x, c2))
  (at level 100, c1 at next level, right associativity).
Notation "c1 ;;; c2" := (bind c1 (λ _, c2))
  (at level 100, right associativity).

(** *** Primitive operations on the dict and on list objects *)

(** [username in messages_list] *)
Definition dict_contains (username : str) : M bool :=
  λ w, (Ok (bool_decide (is_Some (messages_list w !! username))), w).

(** A new empty list object, [[]]. *)
Definition list_new : M loc :=
  λ w, let l := fresh (dom (heap w)) in
       (Ok l, {| messages_list := messages_list w;
                 heap := <[l := []]> (heap w);
                 trace := trace w |}).

(** [messages_list[username] = l] *)
Definition dict_setitem (username : str) (l : loc) : M unit :=
  λ w, (Ok (), {| messages_list := <[username := l]> (messages_list w);
                  heap := heap w;
                  trace := trace w |}).

(** [messages_list.get(username, [])]: the stored list object, or a new
    empty one when the key is absent. *)
Definition dict_get (username : str) : M loc :=
  λ w, match messages_list w !! username with
       | Some l => (Ok l, w)
       | None => list_new w
       end.

(** Contents of a list object. *)
Definition list_read (l : loc) : M (list Turn) :=
  λ w, (Ok (default [] (heap w !! l)), w).

Definition list_write (l : loc) (msgs : list Turn) : M unit :=
  λ w, (Ok (), {| messages_list := messages_list w;
                  heap := <[l := msgs]> (heap w);
                  trace := trace w |}).

(** [l.append(x)] *)
Definition list_append (l : loc) (x : Turn) : M unit :=
  msgs <- list_read l ;; list_write l (msgs ++ [x]).

(** [l.clear()] *)
Definition list_clear (l : loc) : M unit := list_write l [].

(** ** History store *)

(** [sum(len(msg["content"]) for msg in msg_list)] *)
Definition total_length (msg_list : list Turn) : Z :=
  foldl (λ acc msg, acc + len (content msg)) 0 msg_list.

(** The loop
[[
    while total_length > 4096:
        msg = msg_list.pop(0)
        total_length -= len(msg["content"])
]]
    on the contents of the object [msg_list] and the local [total_length];
    [pop(0)] of an empty list raises [IndexError].  It returns the contents
    the object is left with and how the loop ended. *)
Fixpoint pop_while_over (msg_list : list Turn) (total_length : Z)
  : list Turn * result Z :=
  if bool_decide (total_length > 4096) then
    match msg_list with
    | [] => ([], Raise IndexError)
    | msg :: rest => pop_while_over rest (total_length - len (content msg))
    end
  else (msg_list, Ok total_length).

Definition append_history (username content role : str) : M loc :=
  present <- dict_contains username ;;
  (if present then ret ()
   else (l <- list_new ;; dict_setitem username l)) ;;;
  msg_list <- dict_get username ;;
  list_append msg_list {| role := role; content := content |} ;;;
  msgs <- list_read msg_list ;;
  let '(msgs', ended) := pop_while_over msgs (total_length msgs) in
  list_write msg_list msgs' ;;;
  lift ended ;;;
  ret msg_list.

Definition clear_history (username : str) : M unit :=
  msg_list <- dict_get username ;;
  list_clear msg_list.

(** ** Events of the chat transport *)

(** [telegram.User], as far as the bot reads it.  Senders are taken to have
    a username. *)
Record User := { username : str }.

(** [telegram.Chat]: [chat_type] is the field [type]. *)
Record Chat := { chat_id : Z; chat_type : str }.

(** [telegram.Message]; [reply_to_message] is again a message.  [None]
    fields are [None] in Python. *)
Inductive Message := {
  message_id : Z;
  chat : Chat;
  from_user : option User;
  text : option str;
  reply_to_message : option Message
}.

Record Update := { message : option Message }.

(** [update.effective_chat]: the chat of the update's message. *)
Definition effective_chat (update : Update) : option Chat :=
  chat <$> message update.

(** ** Remote services *)

(** The response of the completion service: [completion.choices[i].message]
    is a dict. *)
Record Choice := { choice_message : gmap str str }.
Record Completion := { choices : list Choice }.

(** The outside world as the handlers see it.  Every answer may depend on
    all that was done before (the trace). *)
Record Env := {
  (* context.bot.send_message: the message_id of the message sent *)
  send_message_outcome : list Action → Z → str → result Z;
  (* context.bot.deleteMessage *)
  deleteMessage_outcome : list Action → Z → Z → result unit;
  (* openai.ChatCompletion.create *)
  ChatCompletion_create_outcome : list Action → list Turn → result Completion;
  (* helpers.download_audio: the file downloaded *)
  download_audio_outcome : list Action → result str;
  (* helpers.convert_audio_to_wav *)
  convert_audio_to_wav_outcome : list Action → str → result str;
  (* openai.Audio.transcribe: a dict *)
  Audio_transcribe_outcome : list Action → str → result (gmap str str);
  (* the random generator behind random.choice *)
  random_bits : list Action → nat
}.

(** The world with one more action on its trace. *)
Definition recorded (w : World) (a : Action) : World :=
  {| messages_list := messages_list w;
     heap := heap w;
     trace := trace w ++ [a] |}.

(** An outside call: recorded in the trace, answered by the environment. *)
Definition external {A} (a : Action) (outcome : list Action → result A)
  : M A :=
  λ w, (outcome (trace w), recorded w a).

(** [o.field] where [o] may be [None]. *)
Definition attr {A} (o : option A) : M A :=
  match o with
  | Some a => ret a
  | None => raise AttributeError
  end.

(** [d[key]] *)
Definition subscript (d : gmap str str) (key : str) : M str :=
  match d !! key with
  | Some v => ret v
  | None => raise KeyError
  end.

(** [l[0]] *)
Definition index0 {A} (l : list A) : M A :=
  match l with
  | a :: _ => ret a
  | [] => raise IndexError
  end.

(** [a + b] on strings, where [b] may be [None]. *)
Definition str_add (a : str) (b : option str) : M str :=
  match b with
  | Some b => ret (a ++ b)
  | None => raise TypeError
  end.

(** [x in l] on a list of strings. *)
Fixpoint py_in (x : str) (l : list str) : bool :=
  match l with
  | [] => false
  | y :: l' => bool_decide (y = x) || py_in x l'
  end.

(** [p] is a prefix of [s]. *)
Fixpoint starts_with (p s : str) : bool :=
  match p, s with
  | [], _ => true
  | _ :: _, [] => false
  | a :: p', b :: s' => bool_decide (a = b) && starts_with p' s'
  end.

(** [needle in hay] on strings. *)
Fixpoint contains (needle hay : str) : bool :=
  starts_with needle hay
  || match hay with
     | [] => false
     | _ :: hay' => contains needle hay'
     end.

(** The pool of [generate_gpt_response]. *)
Definition fallback_choices : list str := [
  py "Oops, I must've tripped over my own code. Give me a moment to untangle myself! " ++ [128579%N];
  py "Error 404: Witty response not found. Stand by for reboot. " ++ [128640%N];
  py "Hold on, I think I've misplaced my 1s and 0s. Let me find them and get back to you! " ++ [128269%N];
  py "My circuits are overheating from all the awesomeness. Give me a second to cool down! " ++ [10052%N; 65039%N];
  py "Hold on, I'm buffering" ++ [8230%N] ++ py " just like the good ol' days of dial-up internet. " ++ [128368%N; 65039%N];
  py "I've got a case of digital hiccups! Bear with me while I sip some virtual water. " ++ [129380%N];
  py "I'd tell you a joke, but I think I just forgot the punchline. Hang on while I remember it. " ++ [128517%N];
  py "I'm experiencing a minor glitch in the matrix. Let me reboot and we'll be back to normal. " ++ [128260%N];
  py "Seems like I accidentally hit the snooze button on my internal clock. Let me wake up and get back to you! " ++ [9200%N];
  py "I'm currently lost in the cloud, but don't worry, I'll navigate my way back to you shortly! " ++ [9729%N; 65039%N];
  py "Hold tight, I'm just taking a quick coffee break to recharge my bytes. Be right back! " ++ [9749%N];
  py "Apologies, I'm temporarily stuck in the emoji dimension. I'll escape shortly! " ++ [128565%N; 8205%N; 128171%N];
  py "I think I just blue-screened myself laughing. Let me reboot and I'll be right with you. " ++ [127744%N];
  py "One moment please, I'm currently in a heated debate with my firewall. " ++ [128293%N];
  py "Hang on, I'm in the middle of a software update: 'Installing Humor 2.0.' Should be done soon! " ++ [128242%N]
].

Section Handlers.

Variable allowed_usernames : list str.
Variable env : Env.

(** ** Access control *)

Definition is_allowed_user (username : str) : bool :=
  bool_decide (len allowed_usernames = 0) || py_in username allowed_usernames.

Definition send_message (chat_id : Z) (text : str) : M Z :=
  external (SendMessage chat_id text)
           (λ t, send_message_outcome env t chat_id text).

Definition deleteMessage (message_id chat_id : Z) : M unit :=
  external (DeleteMessage message_id chat_id)
           (λ t, deleteMessage_outcome env t message_id chat_id).

Definition logger_info (text : str) : M unit :=
  external (LogInfo text) (λ _, Ok ()).

(** [update.message.from_user.username] *)
Definition sender (update : Update) : M str :=
  msg <- attr (message update) ;;
  user <- attr (from_user msg) ;;
  ret (username user).

(** [update.effective_chat.id] *)
Definition effective_chat_id (update : Update) : M Z :=
  c <- attr (effective_chat update) ;; ret (chat_id c).

Definition handle_allowed_usernames (update : Update) : M bool :=
  name <- sender update ;;
  logger_info (py "Received message from " ++ name) ;;;
  name <- sender update ;;
  if negb (is_allowed_user name) then
    cid <- effective_chat_id update ;;
    send_message cid (py "Sorry, you are not allowed to use this bot") ;;;
    ret false
  else ret true.

(** ** Completion orchestrator *)

(** [random.choice(seq)] *)
Definition random_choice {A} (seq : list A) : M A :=
  λ w, match seq !! (random_bits env (trace w) `mod` length seq)%nat with
       | Some a => (Ok a, w)
       | None => (Raise IndexError, w)
       end.

Definition generate_gpt_response (username : str) : M str :=
  try_except
    (msg_list <- dict_get username ;;
     messages <- list_read msg_list ;;
     completion <-
       external (ChatCompletionCreate (py "gpt-4") 1 messages 80 60)
                (λ t, ChatCompletion_create_outcome env t messages) ;;
     choice <- index0 (choices completion) ;;
     subscript (choice_message choice) (py "content"))
    (λ e, random_choice fallback_choices).

(** ** Message handlers *)

Definition get_audio_transcription (update : Update) : M str :=
  new_file <- external DownloadAudio (download_audio_outcome env) ;;
  voice <- external (ConvertAudioToWav new_file)
                    (λ t, convert_audio_to_wav_outcome env t new_file) ;;
  transcript <- external (AudioTranscribe (py "whisper-1") voice)
                         (λ t, Audio_transcribe_outcome env t voice) ;;
  subscript transcript (py "text").

(** The text handler is dispatched behind [filters.TEXT], so
    [update.message.text] is a string whenever it runs.  Where the text is
    [None] and the event is not a reply, Python makes the key if need be,
    stores the [None] content and raises [TypeError] in [len]; the
    embedding, whose turns hold strings, raises the [TypeError] before the
    append.  Every statement about the handler leaves that input out. *)
Definition process_text_message (update : Update) : M unit :=
  allowed <- handle_allowed_usernames update ;;
  if negb allowed then ret () else
  cid <- effective_chat_id update ;;
  thinking <- send_message cid [129300%N] ;;
  msg <- attr (message update) ;;
  msg_text <-
    match reply_to_message msg with
    | Some original =>
        quoted <- str_add (py "> ") (text original) ;;
        str_add (quoted ++ py " " ++ [10%N; 10%N]) (text msg)
    | None => str_add [] (text msg)
    end ;;
  name <- sender update ;;
  append_history name msg_text (py "user") ;;;
  name <- sender update ;;
  response <- generate_gpt_response name ;;
  name <- sender update ;;
  append_history name response (py "assistant") ;;;
  msg <- attr (message update) ;;
  deleteMessage thinking (chat_id (chat msg)) ;;;
  cid <- effective_chat_id update ;;
  send_message cid response ;;;
  ret ().

Definition process_audio_message (update : Update) : M unit :=
  allowed <- handle_allowed_usernames update ;;
  if negb allowed then ret () else
  transcript <- get_audio_transcription update ;;
  name <- sender update ;;
  append_history name transcript (py "user") ;;;
  name <- sender update ;;
  response <- generate_gpt_response name ;;
  name <- sender update ;;
  append_history name response (py "assistant") ;;;
  cid <- effective_chat_id update ;;
  send_message cid response ;;;
  ret ().

(** Returns [None] when refused, [messages_list] otherwise. *)
Definition reset_history (update : Update) : M (option (gmap str loc)) :=
  allowed <- handle_allowed_usernames update ;;
  if negb allowed then ret None else
  name <- sender update ;;
  clear_history name ;;;
  cid <- effective_chat_id update ;;
  send_message cid (py "Messages history cleaned") ;;;
  λ w, (Ok (Some (messages_list w)), w).

End Handlers.

(** ** Event classifier *)

(** [telegram.Bot], as far as the filter reads it. *)
Record Bot := { bot_username : str }.

(** What [filter] can return: a bool, or the [None] of an absent
    [reply_to_message] or [from_user] passed on by [and] and [or]. *)
Inductive pyval :=
  | PyBool (b : bool)
  | PyNone.

Definition truthy (v : pyval) : bool :=
  match v with
  | PyBool b => b
  | PyNone => false
  end.

Module DirectOrMentionInGroup.

(** [update.message.reply_to_message
     and update.message.reply_to_message.from_user
     and update.message.reply_to_message.from_user.username == name] *)
Definition is_reply_to (name : str) (msg : Message) : pyval :=
  match reply_to_message msg with
  | None => PyNone
  | Some original =>
      match from_user original with
      | None => PyNone
      | Some user => PyBool (bool_decide (username user = name))
      end
  end.

(** The filter object: [self.bot], [self.username]. *)
Record t := { bot : Bot; username : option str }.

Definition __init__ (bot : Bot) : t := {| bot := bot; username := None |}.

(** [if not self.username: self.username = self.bot.username], with the
    value [self.username] has afterwards. *)
Definition resolve (self : t) : str * t :=
  match username self with
  | Some (c :: name) => (c :: name, self)
  | _ => (bot_username (bot self),
          {| bot := bot self; username := Some (bot_username (bot self)) |})
  end.

(** The log line written when the handle is resolved is left out. *)
Definition filter (self : t) (update : Update) : pyval * t :=
  match message update with
  | None => (PyBool false, self)
  | Some msg =>
      match text msg with
      | None | Some [] => (PyBool false, self)
      | Some msg_text =>
          let '(name, self) := resolve self in
          let is_group_chat :=
            py_in (chat_type (chat msg)) [py "group"; py "supergroup"] in
          let mentioned := contains (py "@" ++ name) msg_text in
          let is_reply_to_bot := is_reply_to name msg in
          (if negb is_group_chat then PyBool true
           else if mentioned then PyBool true
           else is_reply_to_bot,
           self)
      end
  end.

End DirectOrMentionInGroup.

(** ** Notions the statements use *)

(** The list object [append_history] and [clear_history] work on: the one
    stored for the username, or else the next new one. *)
Definition target (w : World) (username : str) : loc :=
  match messages_list w !! username with
  | Some l => l
  | None => fresh (dom (heap w))
  end.

(** The contents stored for a username before an operation; none is empty. *)
Definition previous (w : World) (username : str) : list Turn :=
  default [] (history w username).

(** What the eviction loop leaves of [msgs]. *)
Definition trimmed (msgs : list Turn) : list Turn :=
  (pop_while_over msgs (total_length msgs)).1.

(** [s] is the longest suffix of [msgs] whose contents add up to at most
    4096 characters. *)
Definition longest_suffix_within (s msgs : list Turn) : Prop :=
  s `suffix_of` msgs
  ∧ total_length s ≤ 4096
  ∧ ∀ s', s' `suffix_of` msgs → total_length s' ≤ 4096 →
          (length s' ≤ length s)%nat.

(** Every stored history is within the budget. *)
Definition bounded (w : World) : Prop :=
  ∀ u h, history w u = Some h → total_length h ≤ 4096.

(** The chat is a multi-party one. *)
Definition is_group (c : Chat) : Prop :=
  chat_type c = py "group" ∨ chat_type c = py "supergroup".

(** The text holds the literal ["@" + handle]. *)
Definition mentions (handle msg_text : str) : Prop :=
  ∃ before after, msg_text = before ++ (py "@" ++ handle) ++ after.

(** The message answers one whose author has the given handle. *)
Definition replies_to (handle : str) (msg : Message) : Prop :=
  ∃ original user,
    reply_to_message msg = Some original
    ∧ from_user original = Some user
    ∧ username user = handle.

(** The action is a call of the completion service. *)
Definition is_completion_call (a : Action) : bool :=
  match a with
  | ChatCompletionCreate _ _ _ _ _ => true
  | _ => false
  end.

(** [generate_gpt_response] as the handlers call it: the request it sends
    for a username whose history is a stored object. *)
Definition completion_request (messages : list Turn) : Action :=
  ChatCompletionCreate (py "gpt-4") 1 messages 80 60.

(** The text handler takes [effective] as the sender's input: the request
    it sends to the completion service carries the history with the turn
    [{"role": "user", "content": effective}] appended (and trimmed), and
    the history it leaves is that one, or that one with the assistant's
    turn appended (and trimmed). *)
Definition takes_as_user_turn
    (allowed_usernames : list str) (env : Env) (update : Update)
    (msg : Message) (user : User) (w : World) (effective : str) : Prop :=
  let name := username user in
  let stored :=
    trimmed (previous w name
             ++ [{| role := py "user"; content := effective |}]) in
  let after := (process_text_message allowed_usernames env update w).2 in
  (∃ rest,
     trace after
     = trace w
       ++ [LogInfo (py "Received message from " ++ name);
           SendMessage (chat_id (chat msg)) [129300%N];
           completion_request stored]
       ++ rest)
  ∧ (history after name = Some stored
     ∨ ∃ response,
         history after name
         = Some (trimmed (stored ++ [{| role := py "assistant";
                                        content := response |}]))).

(** What the filter is to let through, for a message with text. *)
Definition routed (handle : str) (msg : Message) (msg_text : str) : Prop :=
  ¬ is_group (chat msg) ∨ mentions handle msg_text ∨ replies_to handle msg.

(** The filter object remembers no handle yet, or the bot's own. *)
Definition memoized (self : DirectOrMentionInGroup.t) : Prop :=
  DirectOrMentionInGroup.username self = None
  ∨ DirectOrMentionInGroup.username self
    = Some (bot_username (DirectOrMentionInGroup.bot self)).

(** A run of [append_history] calls for one username. *)
Fixpoint appends (username : str) (turns : list (str * str)) : M unit :=
  match turns with
  | [] => ret ()
  | (content, role) :: turns' =>
      append_history username content role ;;;
      appends username turns'
  end.

(** The operations of the history store, for any username. *)
Inductive Op :=
  | Append (username content role : str)
  | Clear (username : str).

Definition run_op (op : Op) : M unit :=
  match op with
  | Append username content role =>
      append_history username content role ;;; ret ()
  | Clear username => clear_history username
  end.

Fixpoint run_ops (ops : list Op) : M unit :=
  match ops with
  | [] => ret ()
  | op :: ops' => run_op op ;;; run_ops ops'
  end.

(** ** Start-up: the settings read from the environment *)

Section Configuration.

(** [str.isspace] on one character, which [str.strip] goes by. *)
Variable isspace : N → bool.

(** [s.lstrip()] *)
Fixpoint str_lstrip (s : str) : str :=
  match s with
  | [] => []
  | c :: s' => if isspace c then str_lstrip s' else s
  end.

(** [s.strip()] *)
Definition str_strip (s : str) : str :=
  reverse (str_lstrip (reverse (str_lstrip s))).

(** [s.split(sep)] for a separator of one character. *)
Fixpoint str_split (sep : N) (s : str) : list str :=
  match s with
  | [] => [[]]
  | c :: s' =>
      if bool_decide (c = sep) then [] :: str_split sep s'
      else match str_split sep s' with
           | piece :: pieces => (c :: piece) :: pieces
           | [] => [[c]]
           end
  end.

(** [sep.join(pieces)] for a separator of one character. *)
Fixpoint str_join (sep : N) (pieces : list str) : str :=
  match pieces with
  | [] => []
  | [piece] => piece
  | piece :: pieces' => piece ++ sep :: str_join sep pieces'
  end.

(** [[x.strip() for x in pieces if x.strip()]] *)
Fixpoint stripped_nonempty (pieces : list str) : list str :=
  match pieces with
  | [] => []
  | x :: pieces' =>
      match str_strip x with
      | [] => stripped_nonempty pieces'
      | name => name :: stripped_nonempty pieces'
      end
  end.

(** The comma, [","]. *)
Definition comma : N := 44%N.

(** [[x.strip() for x in value.split(',') if x.strip()]], the value of
    [allowed_usernames] for [os.environ["ALLOWED_USERNAMES"] = value]. *)
Definition parse_allowed_usernames (value : str) : list str :=
  stripped_nonempty (str_split comma value).

(** The module's settings. *)
Record Settings := {
  telegram_token : str;
  openai_api_key : str;
  allowed_usernames_read : list str
}.

(** [os.environ[key]] *)
Definition environ_getitem (environ : gmap str str) (key : str)
  : result str :=
  match environ !! key with
  | Some value => Ok value
  | None => Raise KeyError
  end.

(** The three assignments at the top of the module, in their order. *)
Definition startup (environ : gmap str str) : result Settings :=
  match environ_getitem environ (py "TELEGRAM_TOKEN") with
  | Raise e => Raise e
  | Ok token =>
      match environ_getitem environ (py "OPENAI_TOKEN") with
      | Raise e => Raise e
      | Ok key =>
          match environ_getitem environ (py "ALLOWED_USERNAMES") with
          | Raise e => Raise e
          | Ok value =>
              Ok {| telegram_token := token;
                    openai_api_key := key;
                    allowed_usernames_read := parse_allowed_usernames value |}
          end
      end
  end.

(** A name as the allow-list keeps it: not empty, without a comma, without
    white space at either end. *)
Definition clean (name : str) : Prop :=
  name ≠ []
  ∧ (comma ∉ name)
  ∧ (∀ c, head name = Some c → isspace c = false)
  ∧ (∀ c, last name = Some c → isspace c = false).

(** Nothing but commas and white space. *)
Definition blank (value : str) : Prop :=
  ∀ c, c ∈ value → c = comma ∨ isspace c = true.

End Configuration.

(** ** The handlers, one event after the other *)

(** Distinct list objects, each within the budget. *)
Definition inv (w : World) : Prop := wf w ∧ bounded w.

(** From [w] to [w']: every username that is a key stays one, bound to the
    same list object, and what was done stays done. *)
Definition grows (w w' : World) : Prop :=
  messages_list w ⊆ messages_list w' ∧ trace w `prefix_of` trace w'.

(** A computation that, however it ends, keeps the keys and the invariant. *)
Definition keeps {A} (m : M A) : Prop :=
  ∀ w, grows w (m w).2 ∧ (inv w → inv (m w).2).

(** One event handled: which handler, with what update, and how the outside
    world answers during that run. *)
Inductive Event :=
  | TextMessage (env : Env) (update : Update)
  | VoiceMessage (env : Env) (update : Update)
  | ResetCommand (env : Env) (update : Update).

(** The text handler is registered behind [filters.TEXT]: the message of an
    update it is run on has a text. *)
Definition dispatched (ev : Event) : Prop :=
  match ev with
  | TextMessage _ update => ∀ msg, message update = Some msg → text msg ≠ None
  | VoiceMessage _ _ | ResetCommand _ _ => True
  end.

(** The world a handler leaves, whether it returns or raises. *)
Definition handle (allowed_usernames : list str) (ev : Event)
    (w : World) : World :=
  match ev with
  | TextMessage env update =>
      (process_text_message allowed_usernames env update w).2
  | VoiceMessage env update =>
      (process_audio_message allowed_usernames env update w).2
  | ResetCommand env update =>
      (reset_history allowed_usernames env update w).2
  end.

Fixpoint handle_all (allowed_usernames : list str) (evs : list Event)
    (w : World) : World :=
  match evs with
  | [] => w
  | ev :: evs' =>
      handle_all allowed_usernames evs' (handle allowed_usernames ev w)
  end.

(** The usernames a run of store operations appends to. *)
Fixpoint appended_to (ops : list Op) : gset str :=
  match ops with
  | [] => ∅
  | Append username _ _ :: ops' => {[username]} ∪ appended_to ops'
  | Clear _ :: ops' => appended_to ops'
  end.

(** What [process_text_message] takes as the sender's input, when there is
    one: the quoted original and the new text for a reply, the text
    otherwise. *)
Definition effective_input (msg : Message) : option str :=
  match reply_to_message msg with
  | Some original =>
      match text original, text msg with
      | Some quoted, Some msg_text =>
          Some (py "> " ++ quoted ++ py " " ++ [10%N; 10%N] ++ msg_text)
      | _, _ => None
      end
  | None => text msg
  end.

(** The world once the sender is let through and the placeholder is
    sent. *)
Definition placeholder_sent (w : World) (user : User) (msg : Message)
  : World :=
  recorded
    (recorded w (LogInfo (py "Received message from " ++ username user)))
    (SendMessage (chat_id (chat msg)) [129300%N]).

(** The last two steps of [process_text_message]: the placeholder deleted,
    then the response sent. *)
Definition deliver (env : Env) (thinking cid : Z) (response : str)
    (w : World) : result unit * World :=
  match deleteMessage_outcome env (trace w) thinking cid with
  | Raise e => (Raise e, recorded w (DeleteMessage thinking cid))
  | Ok _ =>
      (match
         send_message_outcome env (trace w ++ [DeleteMessage thinking cid])
           cid response
       with
       | Ok _ => Ok ()
       | Raise e => Raise e
       end,
       recorded (recorded w (DeleteMessage thinking cid))
                (SendMessage cid response))
  end.

(** [filters.VOICE & direct_or_mention_in_group], the filter the voice
    handler is registered with: an update passes when both filters accept
    it, and the second is asked only when the first accepts.  [VOICE] is
    the library's filter. *)
Definition audio_handler_filter (VOICE : Update → bool)
    (self : DirectOrMentionInGroup.t) (update : Update)
  : bool * DirectOrMentionInGroup.t :=
  if VOICE update then
    (truthy (DirectOrMentionInGroup.filter self update).1,
     (DirectOrMentionInGroup.filter self update).2)
  else (false, self).

(** The history of a sender once the user's turn is appended. *)
Definition with_user_turn (w : World) (user : User) (effective : str)
  : list Turn :=
  trimmed (previous w (username user)
           ++ [{| role := py "user"; content := effective |}]).

(** A history once the assistant's turn is appended. *)
Definition with_assistant_turn (stored : list Turn) (response : str)
  : list Turn :=
  trimmed (stored ++ [{| role := py "assistant"; content := response |}]).

(** ** Concrete worlds and events, for the examples *)

Definition alice : str := py "alice".
Definition bob : str := py "bob".
Definition eve : str := py "eve".

(** A completion service that answers ["Hi there"], a transport that never
    fails, and a transcription service that times out. *)
Definition friendly : Env :=
  {| send_message_outcome := λ t _ _, Ok (len t);
     deleteMessage_outcome := λ _ _ _, Ok ();
     ChatCompletion_create_outcome := λ _ _,
       Ok {| choices :=
               [{| choice_message := {[ py "content" := py "Hi there" ]} |}] |};
     download_audio_outcome := λ _, Ok (py "voice.oga");
     convert_audio_to_wav_outcome := λ _ _, Ok (py "voice.wav");
     Audio_transcribe_outcome := λ _ _, Raise OpenAITimeout;
     random_bits := λ _, 7%nat |}.

(** The same, with a completion service that times out. *)
Definition timing_out : Env :=
  {| send_message_outcome := send_message_outcome friendly;
     deleteMessage_outcome := deleteMessage_outcome friendly;
     ChatCompletion_create_outcome := λ _ _, Raise OpenAITimeout;
     download_audio_outcome := download_audio_outcome friendly;
     convert_audio_to_wav_outcome := convert_audio_to_wav_outcome friendly;
     Audio_transcribe_outcome := Audio_transcribe_outcome friendly;
     random_bits := random_bits friendly |}.

Definition private_chat : Chat := {| chat_id := 42; chat_type := py "private" |}.
Definition group_chat : Chat := {| chat_id := 43; chat_type := py "group" |}.

(** A message of [name] in [c], with text and without a reply. *)
Definition says (name : str) (c : Chat) (body : option str) : Message :=
  {| message_id := 1; chat := c; from_user := Some {| username := name |};
     text := body; reply_to_message := None |}.

(** A message of [name] in [c] answering [original]. *)
Definition answers (name : str) (c : Chat) (body : option str)
    (original : Message) : Message :=
  {| message_id := 2; chat := c; from_user := Some {| username := name |};
     text := body; reply_to_message := Some original |}.

Definition hello : Update :=
  {| message := Some (says alice private_chat (Some (py "Hello"))) |}.

(** A voice message: no text. *)
Definition voice_note : Update :=
  {| message := Some (says alice private_chat None) |}.

(** [alice] answers ["ping"] with ["pong"]. *)
Definition pong : Update :=
  {| message :=
       Some (answers alice private_chat (Some (py "pong"))
               (says bob private_chat (Some (py "ping")))) |}.

(** [alice] answers a message without text. *)
Definition pong_to_photo : Update :=
  {| message :=
       Some (answers alice private_chat (Some (py "pong"))
               (says bob private_chat None)) |}.

(** In a group, [bob] names the bot. *)
Definition gpt_bot : Bot := {| bot_username := py "gpt_bot" |}.
Definition hey_bot : Update :=
  {| message := Some (says bob group_chat (Some (py "hey @gpt_bot"))) |}.

(** A content of 4097 characters. *)
Definition oversized : str := replicate 4097 65%N.

(** White space for the examples: the ASCII blank characters. *)
Definition ascii_isspace (c : N) : bool :=
  bool_decide (c ∈ [9%N; 10%N; 11%N; 12%N; 13%N; 32%N]).


(** A transport that cannot send messages. *)
Definition offline : Env :=
  {| send_message_outcome := λ _ _ _, Raise TelegramError;
     deleteMessage_outcome := deleteMessage_outcome friendly;
     ChatCompletion_create_outcome := ChatCompletion_create_outcome friendly;
     download_audio_outcome := download_audio_outcome friendly;
     convert_audio_to_wav_outcome := convert_audio_to_wav_outcome friendly;
     Audio_transcribe_outcome := Audio_transcribe_outcome friendly;
     random_bits := random_bits friendly |}.


(** [alice] answers a message of 4096 characters with ["ok"]. *)
Definition long_quote : Update :=
  {| message :=
       Some (answers alice private_chat (Some (py "ok"))
               (says bob private_chat (Some (replicate 4096 65%N)))) |}.

(** A completion call cut short by the operator. *)
Definition interrupted : Env :=
  {| send_message_outcome := send_message_outcome friendly;
     deleteMessage_outcome := deleteMessage_outcome friendly;
     ChatCompletion_create_outcome := λ _ _, Raise KeyboardInterrupt;
     download_audio_outcome := download_audio_outcome friendly;
     convert_audio_to_wav_outcome := convert_audio_to_wav_outcome friendly;
     Audio_transcribe_outcome := Audio_transcribe_outcome friendly;
     random_bits := random_bits friendly |}.

(** ** The history store: basic facts *)

Lemma foldl_total_shift (msgs : list Turn) (a : Z) :
  foldl (λ acc msg, acc + len (content msg)) a msgs
  = a + total_length msgs.
Proof.
  unfold total_length. revert a.
  induction msgs as [|m msgs IH]; intros a; simpl; [lia|].
  rewrite (IH (a + _)), (IH (0 + _)). lia.
Qed.

Lemma total_length_nil : total_length [] = 0.
Proof. reflexivity. Qed.

Lemma total_length_cons (m : Turn) (msgs : list Turn) :
  total_length (m :: msgs) = len (content m) + total_length msgs.
Proof.
  unfold total_length at 1. simpl. rewrite foldl_total_shift. lia.
Qed.

Lemma total_length_app (l1 l2 : list Turn) :
  total_length (l1 ++ l2) = total_length l1 + total_length l2.
Proof.
  induction l1 as [|m l1 IH]; simpl.
  - rewrite total_length_nil. lia.
  - rewrite !total_length_cons, IH. lia.
Qed.

Lemma total_length_nonneg (msgs : list Turn) : 0 ≤ total_length msgs.
Proof.
  induction msgs as [|m msgs IH].
  - rewrite total_length_nil. lia.
  - rewrite total_length_cons. unfold len. lia.
Qed.

(** The loop never pops from an empty list when it starts from the true
    total, and it stops at the first suffix within the budget. *)
Lemma pop_while_over_total (msgs : list Turn) :
  pop_while_over msgs (total_length msgs)
  = (trimmed msgs, Ok (total_length (trimmed msgs))).
Proof.
  unfold trimmed. induction msgs as [|m msgs IH].
  - reflexivity.
  - cbn [pop_while_over]. case_bool_decide as Hgt.
    + rewrite total_length_cons.
      replace (len (content m) + total_length msgs - len (content m))
        with (total_length msgs) by lia.
      exact IH.
    + reflexivity.
Qed.

Lemma trimmed_cons (m : Turn) (msgs : list Turn) :
  trimmed (m :: msgs)
  = if bool_decide (total_length (m :: msgs) > 4096) then trimmed msgs
    else m :: msgs.
Proof.
  unfold trimmed. cbn [pop_while_over]. case_bool_decide; [|reflexivity].
  rewrite total_length_cons. f_equal. f_equal. lia.
Qed.

Lemma suffix_of_cons {A} (s l : list A) (x : A) :
  s `suffix_of` x :: l → s = x :: l ∨ s `suffix_of` l.
Proof.
  intros [[|y k] Hk]; simpl in Hk.
  - by left.
  - right. exists k. congruence.
Qed.

Lemma trimmed_nil : trimmed [] = [].
Proof. reflexivity. Qed.

Lemma trimmed_longest (msgs : list Turn) :
  longest_suffix_within (trimmed msgs) msgs.
Proof.
  induction msgs as [|m msgs (Hsuf & Hle & Hmax)].
  - rewrite trimmed_nil.
    repeat split; [done | rewrite total_length_nil; lia |].
    intros s' Hs' _. apply suffix_nil_inv in Hs'. by subst.
  - rewrite trimmed_cons. case_bool_decide as Hgt.
    + repeat split.
      * by apply suffix_cons_r.
      * exact Hle.
      * intros s' Hs' Hs'le. apply suffix_of_cons in Hs' as [->|Hs'].
        -- lia.
        -- by apply Hmax.
    + repeat split; [done | lia |].
      intros s' Hs' _. by apply suffix_length.
Qed.

Lemma trimmed_within (msgs : list Turn) :
  total_length msgs ≤ 4096 → trimmed msgs = msgs.
Proof.
  destruct msgs as [|m msgs]; [done|].
  intros Hle. rewrite trimmed_cons. case_bool_decide; [lia | done].
Qed.

(** *** What the two operations do to the world *)

Lemma target_lookup (w : World) (u : str) (l : loc) :
  messages_list w !! u = Some l → target w u = l.
Proof. unfold target. by intros ->. Qed.

Lemma previous_lookup (w : World) (u : str) (l : loc) :
  messages_list w !! u = Some l → previous w u = default [] (heap w !! l).
Proof. unfold previous, history. by intros ->. Qed.

Lemma previous_absent (w : World) (u : str) :
  messages_list w !! u = None → previous w u = [].
Proof. unfold previous, history. by intros ->. Qed.

Lemma append_history_run (u c r : str) (w : World) :
  append_history u c r w
  = (Ok (target w u),
     {| messages_list := <[u := target w u]> (messages_list w);
        heap := <[target w u :=
                    trimmed (previous w u ++ [{| role := r; content := c |}])]>
                  (heap w);
        trace := trace w |}).
Proof.
  unfold append_history, bind, dict_contains, dict_get, list_append,
    list_read, list_write, list_new, dict_setitem, ret, lift.
  destruct (messages_list w !! u) as [l|] eqn:Hu; simpl.
  - rewrite (target_lookup _ _ _ Hu), (previous_lookup _ _ _ Hu).
    rewrite Hu. simpl. rewrite lookup_insert_eq. simpl.
    rewrite pop_while_over_total. simpl.
    rewrite insert_insert_eq, (insert_id _ _ _ Hu). reflexivity.
  - rewrite (previous_absent _ _ Hu). unfold target. rewrite Hu.
    rewrite lookup_insert_eq. cbn -[pop_while_over total_length].
    rewrite !lookup_insert_eq. cbn -[pop_while_over total_length].
    rewrite pop_while_over_total. simpl.
    rewrite !insert_insert_eq. reflexivity.
Qed.

Lemma clear_history_run (u : str) (w : World) :
  clear_history u w
  = (Ok (),
     {| messages_list := messages_list w;
        heap := <[target w u := []]> (heap w);
        trace := trace w |}).
Proof.
  unfold clear_history, bind, dict_get, list_clear, list_write, list_new,
    target.
  destruct (messages_list w !! u) as [l|] eqn:Hu; simpl.
  - reflexivity.
  - by rewrite insert_insert_eq.
Qed.

Lemma history_after_append (u c r : str) (w : World) :
  history (append_history u c r w).2 u
  = Some (trimmed (previous w u ++ [{| role := r; content := c |}])).
Proof.
  rewrite append_history_run. unfold history. simpl.
  rewrite lookup_insert_eq. simpl. by rewrite lookup_insert_eq.
Qed.

Lemma history_after_clear (u : str) (l : loc) (w : World) :
  messages_list w !! u = Some l →
  history (clear_history u w).2 u = Some [].
Proof.
  intros Hu. rewrite clear_history_run. unfold history. simpl.
  rewrite Hu. simpl. rewrite (target_lookup _ _ _ Hu).
  by rewrite lookup_insert_eq.
Qed.

(** *** Well-formed worlds *)

Lemma wf_init : wf init.
Proof. split; intros *; unfold init; simpl; by rewrite lookup_empty. Qed.

Lemma fresh_not_stored (w : World) (u : str) (l : loc) :
  wf w → messages_list w !! u = Some l → l ≠ fresh (dom (heap w)).
Proof.
  intros [Hheap _] Hu ->. apply Hheap in Hu.
  apply elem_of_dom in Hu. by apply is_fresh in Hu.
Qed.

(** The object one username's operation works on is not the object stored
    for another username. *)
Lemma target_other (w : World) (a b : str) (l : loc) :
  wf w → a ≠ b → messages_list w !! b = Some l → target w a ≠ l.
Proof.
  intros Hwf Hab Hb. unfold target.
  destruct (messages_list w !! a) as [la|] eqn:Ha.
  - intros ->. destruct Hwf as [_ Hinj]. by apply Hab, (Hinj a b l).
  - intros Heq. by apply (fresh_not_stored w b l).
Qed.

Lemma wf_store (w : World) (a : str) (msgs : list Turn) :
  wf w →
  wf {| messages_list := <[a := target w a]> (messages_list w);
        heap := <[target w a := msgs]> (heap w);
        trace := trace w |}.
Proof.
  intros Hwf. split; simpl.
  - intros u l Hu. destruct (decide (l = target w a)) as [->|Hne].
    + rewrite lookup_insert_eq. eauto.
    + rewrite lookup_insert_ne by done.
      destruct (decide (a = u)) as [->|Hau].
      * rewrite lookup_insert_eq in Hu. congruence.
      * rewrite lookup_insert_ne in Hu by done. by apply Hwf in Hu.
  - intros u1 u2 l.
    destruct (decide (a = u1)) as [E1|H1], (decide (a = u2)) as [E2|H2];
      subst; rewrite ?lookup_insert_eq, ?lookup_insert_ne by done.
    + done.
    + intros [= <-] Hu2. by destruct (target_other w u1 u2 _ Hwf H2 Hu2).
    + intros Hu1 [= <-]. by destruct (target_other w u2 u1 _ Hwf H1 Hu1).
    + destruct Hwf as [_ Hinj]. apply Hinj.
Qed.

Lemma wf_append_history (u c r : str) (w : World) :
  wf w → wf (append_history u c r w).2.
Proof. intros Hwf. rewrite append_history_run. by apply wf_store. Qed.

Lemma wf_garbage (w : World) (msgs : list Turn) :
  wf w →
  wf {| messages_list := messages_list w;
        heap := <[fresh (dom (heap w)) := msgs]> (heap w);
        trace := trace w |}.
Proof.
  intros [Hheap Hinj]. split; simpl; [|done].
  intros u l Hu. destruct (decide (l = fresh (dom (heap w)))) as [->|Hne].
  - rewrite lookup_insert_eq. eauto.
  - rewrite lookup_insert_ne by done. by apply (Hheap u).
Qed.

Lemma wf_clear_history (u : str) (w : World) :
  wf w → wf (clear_history u w).2.
Proof.
  intros Hwf. rewrite clear_history_run. simpl.
  destruct (messages_list w !! u) as [l|] eqn:Hu.
  - rewrite <- (insert_id _ _ _ Hu) at 1.
    rewrite <- (target_lookup _ _ _ Hu) at 1. by apply wf_store.
  - unfold target. rewrite Hu. by apply wf_garbage.
Qed.

(** *** Frame: other usernames *)

Lemma append_history_other (a b c r : str) (w : World) :
  wf w → a ≠ b →
  messages_list (append_history a c r w).2 !! b = messages_list w !! b
  ∧ history (append_history a c r w).2 b = history w b.
Proof.
  intros Hwf Hab. rewrite append_history_run. unfold history. simpl.
  rewrite lookup_insert_ne by done. split; [done|].
  destruct (messages_list w !! b) as [l|] eqn:Hb; [simpl|done].
  rewrite lookup_insert_ne; [done|]. by apply (target_other w a b).
Qed.

Lemma clear_history_other (a b : str) (w : World) :
  wf w → a ≠ b →
  messages_list (clear_history a w).2 !! b = messages_list w !! b
  ∧ history (clear_history a w).2 b = history w b.
Proof.
  intros Hwf Hab. rewrite clear_history_run. unfold history. simpl.
  split; [done|].
  destruct (messages_list w !! b) as [l|] eqn:Hb; [simpl|done].
  rewrite lookup_insert_ne; [done|]. by apply (target_other w a b).
Qed.

(** *** Every world the store can reach *)

Lemma trimmed_total (msgs : list Turn) : total_length (trimmed msgs) ≤ 4096.
Proof. by destruct (trimmed_longest msgs) as (_ & ? & _). Qed.

Lemma run_op_ok (op : Op) (w : World) : (run_op op w).1 = Ok ().
Proof.
  destruct op as [u c r|u]; simpl.
  - unfold bind. by rewrite append_history_run.
  - by rewrite clear_history_run.
Qed.

Lemma run_op_invariant (op : Op) (w : World) :
  wf w ∧ bounded w → wf (run_op op w).2 ∧ bounded (run_op op w).2.
Proof.
  intros [Hwf Hb]. destruct op as [a c r|a]; simpl.
  - unfold bind.
    pose proof (wf_append_history a c r w Hwf) as Hwf'.
    pose proof (history_after_append a c r w) as Ha.
    pose proof (append_history_other a) as Hother.
    destruct (append_history a c r w) as [[l|e] w'] eqn:Hrun;
      [|by rewrite append_history_run in Hrun].
    simpl in *. split; [done|]. intros u h Hu.
    destruct (decide (a = u)) as [->|Hne].
    + rewrite Ha in Hu. injection Hu as <-. apply trimmed_total.
    + specialize (Hother u c r w Hwf Hne) as [_ Hother].
      rewrite Hrun in Hother. simpl in Hother.
      apply (Hb u). by rewrite <- Hother.
  - split; [by apply wf_clear_history|]. intros u h Hu.
    destruct (decide (a = u)) as [->|Hne].
    + revert Hu. rewrite clear_history_run. unfold history. simpl.
      destruct (messages_list w !! u) as [l|] eqn:Hl; [simpl|done].
      rewrite (target_lookup _ _ _ Hl), lookup_insert_eq.
      intros [= <-]. rewrite total_length_nil. lia.
    + destruct (clear_history_other a u w Hwf Hne) as [_ Hother].
      apply (Hb u). by rewrite <- Hother.
Qed.

(** From the empty table, any run of appends and clears, for any usernames,
    returns normally and leaves every stored history within the budget. *)
Lemma run_ops_invariant (ops : list Op) (w : World) :
  wf w ∧ bounded w →
  (run_ops ops w).1 = Ok ()
  ∧ wf (run_ops ops w).2 ∧ bounded (run_ops ops w).2.
Proof.
  revert w. induction ops as [|op ops IH]; intros w Hw; simpl.
  - by destruct Hw.
  - unfold bind. pose proof (run_op_ok op w) as Hok.
    pose proof (run_op_invariant op w Hw) as Hinv.
    destruct (run_op op w) as [[[]|e] w']; simpl in *; [|done].
    by apply IH.
Qed.

Lemma bounded_init : bounded init.
Proof. intros u h. unfold history, init. simpl. by rewrite lookup_empty. Qed.

Lemma run_ops_from_init (ops : list Op) :
  (run_ops ops init).1 = Ok ()
  ∧ wf (run_ops ops init).2 ∧ bounded (run_ops ops init).2.
Proof. apply run_ops_invariant. split; [apply wf_init | apply bounded_init]. Qed.

(** ** The history store: the properties *)

Lemma appends_cons (u c r : str) (turns : list (str * str)) (w : World) :
  appends u ((c, r) :: turns) w = appends u turns (append_history u c r w).2.
Proof. simpl. unfold bind. by rewrite append_history_run. Qed.

(** C1.  Whatever the table holds to begin with, after every append of a
    run of [append_history] calls for one username (the last call of
    [turns ++ [(content, role)]], for every [turns]), the call has returned
    and the contents stored for the username add up to at most 4096
    characters. *)
Theorem history_within_budget_after_each_append
    (w : World) (username : str) (turns : list (str * str))
    (content role : str) :
  ∃ w' h,
    appends username (turns ++ [(content, role)]) w = (Ok (), w')
    ∧ history w' username = Some h
    ∧ total_length h ≤ 4096.
Proof.
  revert w. induction turns as [|[c r] turns IH]; intros w.
  - rewrite app_nil_l, appends_cons. simpl.
    eexists _, _. split; [reflexivity|].
    split; [apply history_after_append | apply trimmed_total].
  - rewrite <- app_comm_cons, appends_cons. apply IH.
Qed.

Lemma suffix_of_snoc {A} (s l : list A) (x : A) :
  s `suffix_of` l ++ [x] → s = [] ∨ ∃ s0, s = s0 ++ [x].
Proof.
  destruct s as [|y s0 _] using rev_ind; [by left|].
  intros Hs. right. exists s0. by rewrite (suffix_snoc_inv_1 _ _ _ _ Hs).
Qed.

Lemma trimmed_snoc_oversized (h : list Turn) (t : Turn) :
  len (content t) > 4096 → trimmed (h ++ [t]) = [].
Proof.
  intros Hbig. destruct (trimmed_longest (h ++ [t])) as (Hsuf & Hle & _).
  apply suffix_of_snoc in Hsuf as [Hnil|[s0 Hs0]]; [done|].
  rewrite Hs0, total_length_app, total_length_cons, total_length_nil in Hle.
  pose proof (total_length_nonneg s0). lia.
Qed.

Lemma trimmed_snoc_keeps_last (h : list Turn) (t : Turn) :
  len (content t) ≤ 4096 → [t] `suffix_of` trimmed (h ++ [t]).
Proof.
  intros Hfit. destruct (trimmed_longest (h ++ [t])) as (Hsuf & _ & Hmax).
  apply suffix_of_snoc in Hsuf as [Hnil|[s0 Hs0]].
  - specialize (Hmax [t]). rewrite Hnil in Hmax. simpl in Hmax.
    assert (1 ≤ 0)%nat; [|lia]. apply Hmax.
    + by exists h.
    + rewrite total_length_cons, total_length_nil. lia.
  - rewrite Hs0. by exists s0.
Qed.

(** C2.  [append_history] returns the list object stored for the username,
    and that object then holds the longest suffix of the previous contents
    followed by the new turn whose contents add up to at most 4096
    characters, whatever the roles; a new turn of more than 4096 characters
    is evicted itself and leaves the history empty (and one that fits is
    kept as the last turn). *)
Theorem append_history_longest_suffix
    (w : World) (username content role : str) :
  ∃ l w' h',
    append_history username content role w = (Ok l, w')
    ∧ messages_list w' !! username = Some l
    ∧ heap w' !! l = Some h'
    ∧ longest_suffix_within h'
        (previous w username ++ [{| role := role; content := content |}])
    ∧ (len content > 4096 → h' = [])
    ∧ (len content ≤ 4096 →
       [{| role := role; content := content |}] `suffix_of` h').
Proof.
  eexists _, _, _. split; [apply append_history_run|]. simpl.
  split; [by rewrite lookup_insert_eq|].
  split; [by rewrite lookup_insert_eq|].
  split; [apply trimmed_longest|].
  split; intros Hc.
  - by apply trimmed_snoc_oversized.
  - by apply trimmed_snoc_keeps_last.
Qed.

Lemma table_garbage (w : World) (msgs : list Turn) :
  wf w →
  table {| messages_list := messages_list w;
           heap := <[fresh (dom (heap w)) := msgs]> (heap w);
           trace := trace w |}
  = table w.
Proof.
  intros Hwf. apply map_eq. intros u. unfold table. simpl.
  rewrite !lookup_omap.
  destruct (messages_list w !! u) as [l|] eqn:Hu; [simpl|done].
  rewrite lookup_insert_ne; [done|].
  intros Heq. by apply (fresh_not_stored w u l).
Qed.

(** C7.  For a username that is a key of the table, [clear_history] returns
    normally, leaves the dict as it is (the key stays, bound to the same
    list object), and empties that object and nothing else; an append that
    follows starts from the empty history, so it stores the new turn alone
    (or nothing, when the turn exceeds the budget).  For a username that is
    not a key, the dict and the conversation table are unchanged. *)
Theorem clear_history_keeps_key (w : World) (username : str) :
  (∀ l, messages_list w !! username = Some l →
     ∃ w', clear_history username w = (Ok (), w')
       ∧ messages_list w' = messages_list w
       ∧ heap w' = <[l := []]> (heap w)
       ∧ history w' username = Some []
       ∧ ∀ content role,
           history (append_history username content role w').2 username
           = Some (if bool_decide (len content ≤ 4096)
                   then [{| role := role; content := content |}]
                   else []))
  ∧ (wf w → messages_list w !! username = None →
     ∃ w', clear_history username w = (Ok (), w')
       ∧ messages_list w' = messages_list w
       ∧ table w' = table w
       ∧ trace w' = trace w).
Proof.
  split.
  - intros l Hu. eexists. split; [apply clear_history_run|]. simpl.
    rewrite (target_lookup _ _ _ Hu).
    split; [done|]. split; [done|].
    assert (Hcleared :
      history {| messages_list := messages_list w;
                 heap := <[l := []]> (heap w);
                 trace := trace w |} username = Some []).
    { unfold history. simpl. rewrite Hu. simpl. by rewrite lookup_insert_eq. }
    split; [done|]. intros content role.
    rewrite history_after_append. unfold previous. rewrite Hcleared. simpl.
    f_equal. rewrite trimmed_cons, total_length_cons, total_length_nil.
    rewrite trimmed_nil. simpl.
    repeat case_bool_decide; (done || lia).
  - intros Hwf Hu. eexists. split; [apply clear_history_run|]. simpl.
    split; [done|]. split; [|done].
    unfold target. rewrite Hu. by apply table_garbage.
Qed.

(** C10.  In a well-formed world, [append_history] and [clear_history] for
    one username return normally and leave every other username as it was:
    still a key or still not a key, bound to the same list object, with the
    same contents. *)
Theorem other_identity_untouched (w : World) (a b content role : str) :
  wf w → a ≠ b →
  ((append_history a content role w).1 = Ok (target w a)
   ∧ messages_list (append_history a content role w).2 !! b
     = messages_list w !! b
   ∧ history (append_history a content role w).2 b = history w b)
  ∧ ((clear_history a w).1 = Ok ()
     ∧ messages_list (clear_history a w).2 !! b = messages_list w !! b
     ∧ history (clear_history a w).2 b = history w b).
Proof.
  intros Hwf Hab. split; (split; [|split]).
  - by rewrite append_history_run.
  - by apply append_history_other.
  - by apply append_history_other.
  - by rewrite clear_history_run.
  - by apply clear_history_other.
  - by apply clear_history_other.
Qed.

(** ** Access control *)

Lemma py_in_elem_of (x : str) (l : list str) : py_in x l = true ↔ x ∈ l.
Proof.
  induction l as [|y l IH]; simpl.
  - split; [done | by intros ?%elem_of_nil].
  - rewrite orb_true_iff, bool_decide_eq_true, IH, elem_of_cons.
    naive_solver.
Qed.

Lemma is_allowed_user_true (allowed_usernames : list str) (username : str) :
  is_allowed_user allowed_usernames username = true
  ↔ allowed_usernames = [] ∨ username ∈ allowed_usernames.
Proof.
  unfold is_allowed_user.
  rewrite orb_true_iff, bool_decide_eq_true, py_in_elem_of.
  unfold len. destruct allowed_usernames; simpl; [naive_solver|].
  split; (intros [?|?]; [done || lia | by right]).
Qed.

(** C3.  [is_allowed_user] answers true exactly when the allow-list is empty
    or the username is in it: with an empty allow-list for every username,
    with a non-empty one for the listed usernames only. *)
Theorem is_allowed_user_iff (allowed_usernames : list str) (username : str) :
  (is_allowed_user allowed_usernames username = true
   ↔ allowed_usernames = [] ∨ username ∈ allowed_usernames)
  ∧ is_allowed_user [] username = true
  ∧ (allowed_usernames ≠ [] →
     (is_allowed_user allowed_usernames username = true
      ↔ username ∈ allowed_usernames)).
Proof.
  split; [apply is_allowed_user_true|]. split; [done|].
  intros Hne. rewrite is_allowed_user_true. naive_solver.
Qed.

(** ** Event classifier *)

Lemma starts_with_prefix (p s : str) :
  starts_with p s = true ↔ ∃ rest, s = p ++ rest.
Proof.
  revert s. induction p as [|a p IH]; intros s; simpl.
  - split; [by exists s | done].
  - destruct s as [|b s].
    + split; [done | by intros [? ?]].
    + rewrite andb_true_iff, bool_decide_eq_true, IH. split.
      * intros [-> [rest ->]]. by exists rest.
      * intros [rest [= -> ->]]. split; [done | by exists rest].
Qed.

Lemma contains_substring (needle hay : str) :
  contains needle hay = true
  ↔ ∃ before after, hay = before ++ needle ++ after.
Proof.
  induction hay as [|c hay IH].
  - simpl. rewrite orb_false_r, starts_with_prefix. split.
    + intros [rest ->]. by exists [], rest.
    + intros (before & after & Heq). symmetry in Heq.
      apply app_eq_nil in Heq as [-> Heq].
      apply app_eq_nil in Heq as [-> ->]. by exists [].
  - cbn [contains]. rewrite orb_true_iff, starts_with_prefix, IH. split.
    + intros [[rest ->]|(before & after & ->)].
      * by exists [], rest.
      * by exists (c :: before), after.
    + intros ([|c' before] & after & Heq); simpl in Heq.
      * left. by exists after.
      * right. injection Heq as -> ->. by exists before, after.
Qed.

Lemma is_group_decide (c : Chat) :
  py_in (chat_type c) [py "group"; py "supergroup"] = true ↔ is_group c.
Proof.
  unfold is_group. rewrite py_in_elem_of, !elem_of_cons, elem_of_nil.
  naive_solver.
Qed.

Lemma is_reply_to_true (name : str) (msg : Message) :
  DirectOrMentionInGroup.is_reply_to name msg = PyBool true
  ↔ replies_to name msg.
Proof.
  unfold DirectOrMentionInGroup.is_reply_to, replies_to.
  destruct (reply_to_message msg) as [original|];
    [|split; [done | by intros (? & ? & ? & _)]].
  destruct (from_user original) as [user|] eqn:Huser.
  - split.
    + intros [= Heq]. apply bool_decide_eq_true in Heq.
      by exists original, user.
    + intros (? & ? & [= <-] & Huser' & Heq). f_equal.
      apply bool_decide_eq_true. congruence.
  - split; [done|]. intros (? & ? & [= <-] & Huser' & _). congruence.
Qed.

Lemma resolve_memoized (self : DirectOrMentionInGroup.t) :
  memoized self →
  (DirectOrMentionInGroup.resolve self).1
  = bot_username (DirectOrMentionInGroup.bot self)
  ∧ memoized (DirectOrMentionInGroup.resolve self).2.
Proof.
  unfold memoized, DirectOrMentionInGroup.resolve.
  intros [Hnone|Hsome].
  - rewrite Hnone. simpl. by split; [|right].
  - rewrite Hsome.
    destruct (bot_username (DirectOrMentionInGroup.bot self)) as [|c name] eqn:Hb;
      simpl; (split; [done|]); right; simpl; congruence.
Qed.

Lemma memoized_init (bot : Bot) : memoized (DirectOrMentionInGroup.__init__ bot).
Proof. by left. Qed.

Lemma filter_memoized (self : DirectOrMentionInGroup.t) (update : Update) :
  memoized self → memoized (DirectOrMentionInGroup.filter self update).2.
Proof.
  intros Hself. unfold DirectOrMentionInGroup.filter.
  destruct (message update) as [msg|]; [|done].
  destruct (text msg) as [[|c msg_text]|]; [done| |done].
  pose proof (resolve_memoized self Hself) as [_ Hres].
  by destruct (DirectOrMentionInGroup.resolve self).
Qed.

(** C4.  With no message, no text or an empty text the filter returns
    [False].  Otherwise it returns [True] exactly when the chat is not a
    group or supergroup, or the text holds ["@"] followed by the bot's
    handle, or the message answers one written by the bot; the value it
    returns otherwise is falsy. *)
Theorem direct_or_mention_filter
    (self : DirectOrMentionInGroup.t) (update : Update) :
  memoized self →
  (message update = None →
   (DirectOrMentionInGroup.filter self update).1 = PyBool false)
  ∧ (∀ msg, message update = Some msg →
       text msg = None ∨ text msg = Some [] →
       (DirectOrMentionInGroup.filter self update).1 = PyBool false)
  ∧ (∀ msg msg_text,
       message update = Some msg → text msg = Some msg_text →
       msg_text ≠ [] →
       ((DirectOrMentionInGroup.filter self update).1 = PyBool true
        ↔ routed (bot_username (DirectOrMentionInGroup.bot self))
                 msg msg_text)
       ∧ (truthy (DirectOrMentionInGroup.filter self update).1 = true
          ↔ routed (bot_username (DirectOrMentionInGroup.bot self))
                   msg msg_text)).
Proof.
  intros Hself. unfold DirectOrMentionInGroup.filter. split; [|split].
  - by intros ->.
  - by intros msg -> [-> | ->].
  - intros msg msg_text -> -> Hne. unfold routed.
    destruct msg_text as [|c msg_text]; [done|].
    destruct (resolve_memoized self Hself) as [Hname _].
    destruct (DirectOrMentionInGroup.resolve self) as [name self'].
    simpl in Hname. subst name. cbn [fst].
    rewrite <- is_group_decide, <- is_reply_to_true.
    unfold mentions. rewrite <- contains_substring.
    destruct (py_in _ _); cbn [negb];
      [|split; (split; [by left | done])].
    destruct (contains _ _); cbn [negb];
      [split; (split; [by (right; left) | done])|].
    destruct (DirectOrMentionInGroup.is_reply_to _ msg) as [[]|]; simpl;
      split; split; try done; try (by right; right);
      intros [?|[?|?]]; done.
Qed.

(** ** Handlers: how the pieces run *)

Lemma sender_run (update : Update) (msg : Message) (user : User) (w : World) :
  message update = Some msg → from_user msg = Some user →
  sender update w = (Ok (username user), w).
Proof.
  intros Hmsg Huser. unfold sender, bind, attr.
  rewrite Hmsg. simpl. by rewrite Huser.
Qed.

Lemma effective_chat_id_run (update : Update) (msg : Message) (w : World) :
  message update = Some msg →
  effective_chat_id update w = (Ok (chat_id (chat msg)), w).
Proof. unfold effective_chat_id, effective_chat, bind, attr. by intros ->. Qed.

Lemma handle_allowed_usernames_run
    (allowed_usernames : list str) (env : Env) (update : Update)
    (msg : Message) (user : User) (w : World) :
  message update = Some msg → from_user msg = Some user →
  handle_allowed_usernames allowed_usernames env update w
  = if is_allowed_user allowed_usernames (username user)
    then (Ok true,
          recorded w (LogInfo (py "Received message from " ++ username user)))
    else
      (match
         send_message_outcome env
           (trace w ++ [LogInfo (py "Received message from " ++ username user)])
           (chat_id (chat msg))
           (py "Sorry, you are not allowed to use this bot")
       with
       | Ok _ => Ok false
       | Raise e => Raise e
       end,
       recorded
         (recorded w (LogInfo (py "Received message from " ++ username user)))
         (SendMessage (chat_id (chat msg))
                      (py "Sorry, you are not allowed to use this bot"))).
Proof.
  intros Hmsg Huser. unfold handle_allowed_usernames, bind.
  rewrite (sender_run _ _ _ _ Hmsg Huser).
  unfold logger_info, external.
  rewrite (sender_run _ _ _ _ Hmsg Huser).
  destruct (is_allowed_user _ _); simpl; [done|].
  rewrite (effective_chat_id_run _ _ _ Hmsg).
  unfold send_message, external. simpl.
  by destruct (send_message_outcome _ _ _ _).
Qed.

Lemma refused_iff (allowed_usernames : list str) (name : str) :
  allowed_usernames ≠ [] → name ∉ allowed_usernames →
  is_allowed_user allowed_usernames name = false.
Proof.
  intros Hne Hnotin. apply not_true_is_false. intros Hallowed.
  apply is_allowed_user_true in Hallowed as [?|?]; done.
Qed.

(** C6.  For a sender that a non-empty allow-list does not hold, each of the
    three handlers does the same two things, the log line and the fixed
    refusal sent to the chat, and nothing more: no completion call is on the
    trace, and the dict, every list object and so the conversation table are
    as before.  When the refusal is sent without error, the handler returns
    normally. *)
Theorem refused_sender_leaves_table
    (allowed_usernames : list str) (env : Env) (update : Update)
    (msg : Message) (user : User) (w : World) :
  message update = Some msg → from_user msg = Some user →
  allowed_usernames ≠ [] → username user ∉ allowed_usernames →
  ∃ w',
    (process_text_message allowed_usernames env update w).2 = w'
    ∧ (process_audio_message allowed_usernames env update w).2 = w'
    ∧ (reset_history allowed_usernames env update w).2 = w'
    ∧ messages_list w' = messages_list w
    ∧ heap w' = heap w
    ∧ table w' = table w
    ∧ trace w'
      = trace w
        ++ [LogInfo (py "Received message from " ++ username user);
            SendMessage (chat_id (chat msg))
                        (py "Sorry, you are not allowed to use this bot")]
    ∧ (∀ sent,
         send_message_outcome env
           (trace w ++ [LogInfo (py "Received message from " ++ username user)])
           (chat_id (chat msg))
           (py "Sorry, you are not allowed to use this bot")
         = Ok sent →
         (process_text_message allowed_usernames env update w).1 = Ok ()
         ∧ (process_audio_message allowed_usernames env update w).1 = Ok ()
         ∧ (reset_history allowed_usernames env update w).1 = Ok None).
Proof.
  intros Hmsg Huser Hne Hnotin.
  pose proof (refused_iff _ _ Hne Hnotin) as Hrefused.
  pose proof (handle_allowed_usernames_run allowed_usernames env update
                msg user w Hmsg Huser) as Hgate.
  rewrite Hrefused in Hgate.
  unfold process_text_message, process_audio_message, reset_history, bind.
  rewrite Hgate. clear Hgate.
  destruct (send_message_outcome _ _ _ _) as [sent|e]; simpl;
    (eexists; repeat (split; [reflexivity|]); simpl).
  - split; [by rewrite <- app_assoc|]. by intros _ _.
  - split; [by rewrite <- app_assoc|]. by intros ? [=].
Qed.

(** ** Completion orchestrator *)

Lemma fallback_choices_nonempty : Forall (λ s : str, s ≠ []) fallback_choices.
Proof.
  unfold fallback_choices.
  repeat (constructor; [intros [_ ?]%app_eq_nil; discriminate|]).
  constructor.
Qed.

Lemma random_choice_fallback (env : Env) (w : World) :
  ∃ s, random_choice env fallback_choices w = (Ok s, w)
       ∧ s ∈ fallback_choices ∧ s ≠ [].
Proof.
  unfold random_choice.
  destruct (lookup_lt_is_Some_2 fallback_choices
              (random_bits env (trace w) `mod` length fallback_choices)%nat)
    as [s Hs].
  { apply Nat.mod_upper_bound. by vm_compute. }
  rewrite Hs. exists s. split; [done|].
  assert (s ∈ fallback_choices) as Hin by by eapply list_elem_of_lookup_2.
  split; [done|].
  by apply (proj1 (Forall_forall _ _) fallback_choices_nonempty).
Qed.

Ltac draw_fallback env :=
  match goal with
  | |- context [random_choice env fallback_choices ?w] =>
      let s := fresh "s" in
      let Hdraw := fresh "Hdraw" in
      let Hin := fresh "Hin" in
      let Hne := fresh "Hne" in
      destruct (random_choice_fallback env w) as (s & Hdraw & Hin & Hne);
      rewrite Hdraw
  end.

(** The history the request carries, and the world the call leaves. *)
Lemma generate_gpt_response_request (env : Env) (u : str) (w : World) :
  ∃ w1,
    (generate_gpt_response env u w).2
    = recorded w1 (completion_request (previous w u))
    ∧ messages_list w1 = messages_list w
    ∧ trace w1 = trace w
    ∧ (∀ l, messages_list w !! u = Some l → w1 = w).
Proof.
  unfold generate_gpt_response, try_except, bind, dict_get, list_read,
    list_new, external, index0, subscript, previous, history,
    completion_request.
  destruct (messages_list w !! u) as [l|] eqn:Hu; simpl.
  - exists w. split; [|done].
    destruct (ChatCompletion_create_outcome _ _ _) as [[[|c cs]]|e]; simpl.
    + by draw_fallback env.
    + destruct (choice_message c !! py "content"); simpl; [done|].
      by draw_fallback env.
    + destruct (is_Exception e); [|done]. by draw_fallback env.
  - rewrite lookup_insert_eq. simpl.
    eexists {| messages_list := messages_list w;
               heap := <[fresh (dom (heap w)) := []]> (heap w);
               trace := trace w |}.
    split; [|by repeat split; try congruence].
    destruct (ChatCompletion_create_outcome _ _ _) as [[[|c cs]]|e]; simpl.
    + by draw_fallback env.
    + destruct (choice_message c !! py "content"); simpl; [done|].
      by draw_fallback env.
    + destruct (is_Exception e); [|done]. by draw_fallback env.
Qed.

(** What the call returns, by what the service answers. *)
Lemma generate_gpt_response_cases (env : Env) (u : str) (w : World) :
  match ChatCompletion_create_outcome env (trace w) (previous w u) with
  | Ok {| choices := c :: _ |} =>
      match choice_message c !! py "content" with
      | Some s => (generate_gpt_response env u w).1 = Ok s
      | None =>
          ∃ s, (generate_gpt_response env u w).1 = Ok s
               ∧ s ∈ fallback_choices ∧ s ≠ []
      end
  | Ok {| choices := [] |} =>
      ∃ s, (generate_gpt_response env u w).1 = Ok s
           ∧ s ∈ fallback_choices ∧ s ≠ []
  | Raise e =>
      if is_Exception e
      then ∃ s, (generate_gpt_response env u w).1 = Ok s
                ∧ s ∈ fallback_choices ∧ s ≠ []
      else (generate_gpt_response env u w).1 = Raise e
  end.
Proof.
  unfold generate_gpt_response, try_except, bind, dict_get, list_read,
    list_new, external, index0, subscript, previous, history.
  destruct (messages_list w !! u) as [l|] eqn:Hu; simpl;
    rewrite ?lookup_insert_eq; simpl;
    (destruct (ChatCompletion_create_outcome _ _ _) as [[[|c cs]]|e]; simpl;
     [ draw_fallback env; eauto
     | destruct (choice_message c !! py "content"); simpl;
       [done | draw_fallback env; eauto]
     | destruct (is_Exception e); [draw_fallback env; eauto | done] ]).
Qed.

(** C5.  Whatever error the completion call raises (any [Exception]), and
    likewise when the response has no candidate or the candidate no
    content, [generate_gpt_response] returns normally, with a non-empty
    string of the fallback pool; when the call returns a candidate with a
    content, it returns that content. *)
Theorem generate_gpt_response_absorbs_errors
    (env : Env) (username : str) (w : World) :
  (∀ e, ChatCompletion_create_outcome env (trace w) (previous w username)
        = Raise e →
        is_Exception e = true →
        ∃ s, (generate_gpt_response env username w).1 = Ok s
             ∧ s ∈ fallback_choices ∧ s ≠ [])
  ∧ (∀ completion,
       ChatCompletion_create_outcome env (trace w) (previous w username)
       = Ok completion →
       (choices completion = []
        ∨ ∃ c rest, choices completion = c :: rest
                    ∧ choice_message c !! py "content" = None) →
       ∃ s, (generate_gpt_response env username w).1 = Ok s
            ∧ s ∈ fallback_choices ∧ s ≠ [])
  ∧ (∀ completion c rest s,
       ChatCompletion_create_outcome env (trace w) (previous w username)
       = Ok completion →
       choices completion = c :: rest →
       choice_message c !! py "content" = Some s →
       (generate_gpt_response env username w).1 = Ok s).
Proof.
  pose proof (generate_gpt_response_cases env username w) as Hcases.
  split; [|split].
  - intros e He Hexc. rewrite He, Hexc in Hcases. exact Hcases.
  - intros [cs] Hc Hbad. rewrite Hc in Hcases. simpl in Hbad.
    destruct Hbad as [->|(c & rest & -> & Hnone)]; [done|].
    by rewrite Hnone in Hcases.
  - intros [cs] c rest s Hc Hcs Hs. rewrite Hc in Hcases. simpl in Hcs.
    subst cs. by rewrite Hs in Hcases.
Qed.

(** ** Voice handler *)

(** The transcription pipeline touches no history and calls no completion
    service. *)
Lemma get_audio_transcription_effects (env : Env) (update : Update) (w : World) :
  messages_list (get_audio_transcription env update w).2 = messages_list w
  ∧ heap (get_audio_transcription env update w).2 = heap w
  ∧ ∃ acts,
      trace (get_audio_transcription env update w).2 = trace w ++ acts
      ∧ Forall (λ a, is_completion_call a = false) acts.
Proof.
  unfold get_audio_transcription, bind, external, subscript.
  destruct (download_audio_outcome env (trace w)) as [new_file|e]; simpl.
  2: { repeat split. exists [DownloadAudio]. split; [done|].
       by repeat constructor. }
  destruct (convert_audio_to_wav_outcome env _ new_file) as [voice|e]; simpl.
  2: { repeat split. exists [DownloadAudio; ConvertAudioToWav new_file].
       split; [by rewrite <- app_assoc|]. by repeat constructor. }
  assert (Hacts :
    ∃ acts,
      ((trace w ++ [DownloadAudio]) ++ [ConvertAudioToWav new_file])
        ++ [AudioTranscribe (py "whisper-1") voice]
      = trace w ++ acts
      ∧ Forall (λ a, is_completion_call a = false) acts).
  { exists [DownloadAudio; ConvertAudioToWav new_file;
            AudioTranscribe (py "whisper-1") voice].
    split; [by rewrite <- !app_assoc|]. by repeat constructor. }
  destruct (Audio_transcribe_outcome env _ voice) as [transcript|e]; simpl.
  2: { by repeat split. }
  destruct (transcript !! py "text"); simpl; by repeat split.
Qed.

(** C9.  For an allowed sender, when the transcription step raises, the
    voice handler ends with that very exception: the dict and every list
    object are as before the handler ran (no turn was appended), and nothing
    the handler did is a call of the completion service. *)
Theorem transcription_failure_aborts_voice_handler
    (allowed_usernames : list str) (env : Env) (update : Update)
    (msg : Message) (user : User) (w w' : World) (e : exn) :
  message update = Some msg → from_user msg = Some user →
  is_allowed_user allowed_usernames (username user) = true →
  get_audio_transcription env update
    (recorded w (LogInfo (py "Received message from " ++ username user)))
  = (Raise e, w') →
  process_audio_message allowed_usernames env update w = (Raise e, w')
  ∧ messages_list w' = messages_list w
  ∧ heap w' = heap w
  ∧ history w' (username user) = history w (username user)
  ∧ ∃ acts,
      trace w' = trace w ++ acts
      ∧ Forall (λ a, is_completion_call a = false) acts.
Proof.
  intros Hmsg Huser Hallowed Hfail.
  pose proof (get_audio_transcription_effects env update
    (recorded w (LogInfo (py "Received message from " ++ username user))))
    as (Hdict & Hheap & acts & Htrace & Hacts).
  rewrite Hfail in Hdict, Hheap, Htrace. simpl in *.
  split; [|split; [done|split; [done|split]]].
  - unfold process_audio_message, bind.
    rewrite (handle_allowed_usernames_run _ _ _ _ _ _ Hmsg Huser), Hallowed.
    simpl. by rewrite Hfail.
  - unfold history. by rewrite Hdict, Hheap.
  - exists (LogInfo (py "Received message from " ++ username user) :: acts).
    split.
    + rewrite Htrace, <- app_assoc. done.
    + by constructor.
Qed.

(** ** Text handler *)

Lemma history_recorded (w : World) (a : Action) (u : str) :
  history (recorded w a) u = history w u.
Proof. reflexivity. Qed.

Lemma previous_recorded (w : World) (a : Action) (u : str) :
  previous (recorded w a) u = previous w u.
Proof. reflexivity. Qed.

Lemma append_history_summary (u c r : str) (w : World) :
  ∃ l w',
    append_history u c r w = (Ok l, w')
    ∧ messages_list w' !! u = Some l
    ∧ history w' u
      = Some (trimmed (previous w u ++ [{| role := r; content := c |}]))
    ∧ trace w' = trace w.
Proof.
  eexists _, _. split; [apply append_history_run|].
  split; [by simpl; rewrite lookup_insert_eq|]. split; [|done].
  by rewrite <- history_after_append, append_history_run.
Qed.

Lemma process_text_message_input
    (allowed_usernames : list str) (env : Env) (update : Update)
    (msg : Message) (user : User) (thinking : Z) (w : World)
    (effective : str) :
  message update = Some msg → from_user msg = Some user →
  is_allowed_user allowed_usernames (username user) = true →
  send_message_outcome env
    (trace w ++ [LogInfo (py "Received message from " ++ username user)])
    (chat_id (chat msg)) [129300%N]
  = Ok thinking →
  (∀ w1,
     match reply_to_message msg with
     | Some original =>
         quoted <- str_add (py "> ") (text original) ;;
         str_add (quoted ++ py " " ++ [10%N; 10%N]) (text msg)
     | None => str_add [] (text msg)
     end w1 = (Ok effective, w1)) →
  takes_as_user_turn allowed_usernames env update msg user w effective.
Proof.
  intros Hmsg Huser Hallowed Hthinking Hinput.
  unfold takes_as_user_turn. cbv zeta.
  destruct (process_text_message allowed_usernames env update w)
    as [r after] eqn:Hrun.
  unfold process_text_message, bind in Hrun, Hinput.
  rewrite (handle_allowed_usernames_run _ _ _ _ _ _ Hmsg Huser), Hallowed
    in Hrun.
  cbn [negb] in Hrun. rewrite (effective_chat_id_run _ _ _ Hmsg) in Hrun.
  unfold send_message at 1 in Hrun. unfold external at 1 in Hrun.
  cbn [trace recorded] in Hrun.
  rewrite Hthinking in Hrun. unfold attr at 1 in Hrun. rewrite Hmsg in Hrun.
  unfold ret at 1 in Hrun. rewrite Hinput in Hrun.
  rewrite (sender_run _ _ _ _ Hmsg Huser) in Hrun.
  set (name := username user) in *.
  set (w1 := recorded (recorded w _) _) in Hrun.
  destruct (append_history_summary name effective (py "user") w1)
    as (l & w2 & Happ & Hl & Hhist & Htrace).
  rewrite Happ, (sender_run _ _ _ _ Hmsg Huser) in Hrun. fold name in Hrun.
  change (previous w1 name) with (previous w name) in Hhist.
  set (stored := trimmed _) in *.
  assert (Htrace2 :
    trace w2 = trace w ++ [LogInfo (py "Received message from " ++ name);
                           SendMessage (chat_id (chat msg)) [129300%N]]).
  { rewrite Htrace. subst w1. simpl. by rewrite <- app_assoc. }
  destruct (generate_gpt_response_request env name w2)
    as (w2' & Hgen & _ & _ & Hsame).
  rewrite (Hsame l Hl) in Hgen. clear w2' Hsame.
  assert (Hprev : previous w2 name = stored)
    by (unfold previous; by rewrite Hhist).
  rewrite Hprev in Hgen.
  destruct (generate_gpt_response env name w2) as [[response|e] w3];
    simpl in Hgen; subst w3.
  - rewrite (sender_run _ _ _ _ Hmsg Huser) in Hrun. fold name in Hrun.
    destruct (append_history_summary name response (py "assistant")
                (recorded w2 (completion_request stored)))
      as (l' & w4 & Happ' & _ & Hhist' & Htrace').
    rewrite Happ' in Hrun. rewrite previous_recorded, Hprev in Hhist'.
    simpl in Htrace'. unfold attr, ret in Hrun.
    unfold deleteMessage, send_message, external in Hrun.
    rewrite (effective_chat_id_run _ _ _ Hmsg) in Hrun.
    destruct (deleteMessage_outcome _ _ _ _) as [[]|e].
    + destruct (send_message_outcome env _ _ response) as [sent|e];
        injection Hrun as _ <-; simpl.
      * split; [|right; by exists response].
        eexists [_; _]. rewrite Htrace', Htrace2, <- !app_assoc. done.
      * split; [|right; by exists response].
        eexists [_; _]. rewrite Htrace', Htrace2, <- !app_assoc. done.
    + injection Hrun as _ <-; simpl.
      split; [|right; by exists response].
      eexists [_]. rewrite Htrace', Htrace2, <- !app_assoc. done.
  - injection Hrun as _ <-. simpl. split; [|by left].
    exists []. rewrite Htrace2, <- !app_assoc. done.
Qed.

(** The part of the quoting that the code does: for an allowed sender whose
    message has a text, once the placeholder message is sent, when the
    message answers another one that has a text, the handler takes as the
    user's turn ["> "], the original text, [" \n\n"] and the new text; when
    it answers none, the text as it is. *)
Theorem text_handler_quotes_original
    (allowed_usernames : list str) (env : Env) (update : Update)
    (msg : Message) (user : User) (msg_text : str) (thinking : Z)
    (w : World) :
  message update = Some msg → from_user msg = Some user →
  text msg = Some msg_text →
  is_allowed_user allowed_usernames (username user) = true →
  send_message_outcome env
    (trace w ++ [LogInfo (py "Received message from " ++ username user)])
    (chat_id (chat msg)) [129300%N]
  = Ok thinking →
  (∀ original quoted,
     reply_to_message msg = Some original → text original = Some quoted →
     takes_as_user_turn allowed_usernames env update msg user w
       (py "> " ++ quoted ++ py " " ++ [10%N; 10%N] ++ msg_text))
  ∧ (reply_to_message msg = None →
     takes_as_user_turn allowed_usernames env update msg user w msg_text).
Proof.
  intros Hmsg Huser Htext Hallowed Hthinking. split.
  - intros original quoted Hreply Hquoted.
    apply (process_text_message_input _ _ _ _ _ thinking); try done.
    intros w1. rewrite Hreply, Htext. unfold bind, str_add.
    rewrite Hquoted. unfold ret. by rewrite <- !app_assoc.
  - intros Hreply.
    apply (process_text_message_input _ _ _ _ _ thinking); try done.
    intros w1. by rewrite Hreply, Htext.
Qed.

(** A reply to a message without text: [str + None] raises [TypeError]
    after the placeholder is sent, and no turn is appended. *)
Lemma reply_to_message_without_text
    (allowed_usernames : list str) (env : Env) (update : Update)
    (msg original : Message) (user : User) (thinking : Z) (w : World) :
  message update = Some msg → from_user msg = Some user →
  is_allowed_user allowed_usernames (username user) = true →
  send_message_outcome env
    (trace w ++ [LogInfo (py "Received message from " ++ username user)])
    (chat_id (chat msg)) [129300%N]
  = Ok thinking →
  reply_to_message msg = Some original → text original = None →
  (process_text_message allowed_usernames env update w).1 = Raise TypeError
  ∧ messages_list (process_text_message allowed_usernames env update w).2
    = messages_list w
  ∧ heap (process_text_message allowed_usernames env update w).2 = heap w.
Proof.
  intros Hmsg Huser Hallowed Hthinking Hreply Hnone.
  destruct (process_text_message allowed_usernames env update w)
    as [r after] eqn:Hrun.
  unfold process_text_message, bind in Hrun.
  rewrite (handle_allowed_usernames_run _ _ _ _ _ _ Hmsg Huser), Hallowed
    in Hrun.
  cbn [negb] in Hrun. rewrite (effective_chat_id_run _ _ _ Hmsg) in Hrun.
  unfold send_message at 1 in Hrun. unfold external at 1 in Hrun.
  cbn [trace recorded] in Hrun.
  rewrite Hthinking in Hrun. unfold attr at 1 in Hrun. rewrite Hmsg in Hrun.
  unfold ret at 1 in Hrun. rewrite Hreply, Hnone in Hrun.
  unfold str_add, raise in Hrun. by injection Hrun as <- <-.
Qed.

(** C8.  The code at a reply to a message without text ([alice] answers
    ["pong"] to a message of [bob] that has none, with no allow-list and
    every outside call answered): the handler ends in [TypeError] once the
    placeholder is sent, [alice] has no history, and no completion is asked
    for, so for no input at all does the handler take a user's turn. *)
Theorem reply_without_text_appends_no_user_turn :
  process_text_message [] friendly pong_to_photo init
  = (Raise TypeError,
     {| messages_list := ∅;
        heap := ∅;
        trace := [LogInfo (py "Received message from " ++ alice);
                  SendMessage 42 [129300%N]] |})
  ∧ history (process_text_message [] friendly pong_to_photo init).2 alice
    = None
  ∧ ¬ ∃ effective,
        takes_as_user_turn [] friendly pong_to_photo
          (answers alice private_chat (Some (py "pong"))
             (says bob private_chat None))
          {| username := alice |} init effective.
Proof.
  assert (Hrun :
    process_text_message [] friendly pong_to_photo init
    = (Raise TypeError,
       {| messages_list := ∅;
          heap := ∅;
          trace := [LogInfo (py "Received message from " ++ alice);
                    SendMessage 42 [129300%N]] |})) by (by vm_compute).
  split; [exact Hrun|]. rewrite Hrun. split; [reflexivity|].
  intros (effective & (rest & Htrace) & _).
  rewrite Hrun in Htrace. apply (f_equal length) in Htrace.
  simpl in Htrace. discriminate.
Qed.

(** ** The scenarios, run *)

Example alice_says_hello :
  history (process_text_message [] friendly hello init).2 alice
  = Some [ {| role := py "user"; content := py "Hello" |};
           {| role := py "assistant"; content := py "Hi there" |} ]
  ∧ trace (process_text_message [] friendly hello init).2
    = [ LogInfo (py "Received message from alice");
        SendMessage 42 [129300%N];
        completion_request [ {| role := py "user"; content := py "Hello" |} ];
        DeleteMessage 1 42;
        SendMessage 42 (py "Hi there") ].
Proof. by vm_compute. Qed.

Example alice_resets :
  history
    (reset_history [] friendly hello
       (process_text_message [] friendly hello init).2).2 alice
  = Some [].
Proof. by vm_compute. Qed.

Example eve_is_refused :
  history (process_text_message [alice] friendly
             {| message := Some (says eve private_chat (Some (py "hi"))) |}
             init).2 eve
  = None.
Proof. by vm_compute. Qed.

Example bob_near_the_budget :
  history
    (append_history bob (replicate 20 66%N) (py "user")
       (append_history bob (replicate 90 65%N) (py "assistant")
          (append_history bob (replicate 4000 65%N) (py "user") init).2).2).2
    bob
  = Some [ {| role := py "assistant"; content := replicate 90 65%N |};
           {| role := py "user"; content := replicate 20 66%N |} ].
Proof. by vm_compute. Qed.

Example fallback_is_remembered :
  ∃ s, s ∈ fallback_choices
       ∧ history (process_text_message [] timing_out hello init).2 alice
         = Some [ {| role := py "user"; content := py "Hello" |};
                  {| role := py "assistant"; content := s |} ].
Proof.
  exists (default [] (fallback_choices !! 7%nat)). split; [|by vm_compute].
  apply (list_elem_of_lookup_2 _ 7%nat). by vm_compute.
Qed.

(** A voice message never passes the filter: it has no text. *)
Example voice_note_is_not_routed :
  (DirectOrMentionInGroup.filter
     (DirectOrMentionInGroup.__init__ gpt_bot) voice_note).1
  = PyBool false.
Proof. reflexivity. Qed.

(** ** The properties at concrete inputs *)

Lemma append_history_longest_suffix_witness :
  len oversized > 4096
  ∧ history (append_history alice oversized (py "user") init).2 alice
    = Some [].
Proof.
  destruct (append_history_longest_suffix init alice oversized (py "user"))
    as (l & w' & h' & Hrun & Hl & Hh & _ & Hbig & _).
  assert (Hlen : len oversized > 4096) by (by vm_compute).
  split; [exact Hlen|].
  rewrite Hrun. unfold history. simpl. rewrite Hl. simpl. rewrite Hh.
  f_equal. exact (Hbig Hlen).
Defined.

Lemma is_allowed_user_iff_witness :
  [alice; bob] ≠ []
  ∧ (is_allowed_user [alice; bob] eve = true ↔ eve ∈ [alice; bob]).
Proof.
  assert (Hne : [alice; bob] ≠ []) by discriminate.
  split; [exact Hne|].
  exact (proj2 (proj2 (is_allowed_user_iff [alice; bob] eve)) Hne).
Defined.

Lemma direct_or_mention_filter_witness :
  memoized (DirectOrMentionInGroup.__init__ gpt_bot)
  ∧ ((DirectOrMentionInGroup.filter
        (DirectOrMentionInGroup.__init__ gpt_bot) hey_bot).1 = PyBool true
     ↔ routed (py "gpt_bot") (says bob group_chat (Some (py "hey @gpt_bot")))
              (py "hey @gpt_bot")).
Proof.
  assert (Hself : memoized (DirectOrMentionInGroup.__init__ gpt_bot))
    by (by left).
  split; [exact Hself|].
  destruct (direct_or_mention_filter
              (DirectOrMentionInGroup.__init__ gpt_bot) hey_bot Hself)
    as (_ & _ & Htext).
  apply (Htext (says bob group_chat (Some (py "hey @gpt_bot")))
               (py "hey @gpt_bot") eq_refl eq_refl).
  discriminate.
Defined.

Lemma generate_gpt_response_absorbs_errors_witness :
  ChatCompletion_create_outcome timing_out (trace init) (previous init alice)
  = Raise OpenAITimeout
  ∧ is_Exception OpenAITimeout = true
  ∧ ∃ s, (generate_gpt_response timing_out alice init).1 = Ok s
         ∧ s ∈ fallback_choices ∧ s ≠ [].
Proof.
  split; [reflexivity|]. split; [reflexivity|].
  exact (proj1 (generate_gpt_response_absorbs_errors timing_out alice init)
           OpenAITimeout eq_refl eq_refl).
Defined.

Lemma refused_sender_leaves_table_witness :
  [alice] ≠ [] ∧ (eve ∉ [alice])
  ∧ ∃ w',
      (process_text_message [alice] friendly
         {| message := Some (says eve private_chat (Some (py "hi"))) |}
         init).2 = w'
      ∧ table w' = table init
      ∧ trace w'
        = [LogInfo (py "Received message from " ++ eve);
           SendMessage 42 (py "Sorry, you are not allowed to use this bot")].
Proof.
  assert (Hne : [alice] ≠ []) by discriminate.
  assert (Hnotin : eve ∉ [alice]).
  { intros Hin. apply list_elem_of_singleton in Hin. discriminate. }
  split; [exact Hne|]. split; [exact Hnotin|].
  destruct (refused_sender_leaves_table [alice] friendly
              {| message := Some (says eve private_chat (Some (py "hi"))) |}
              (says eve private_chat (Some (py "hi")))
              {| username := eve |} init eq_refl eq_refl Hne Hnotin)
    as (w' & Htext & _ & _ & _ & _ & Htable & Htrace & _).
  exists w'. split; [exact Htext|]. split; [exact Htable|]. exact Htrace.
Defined.

Lemma clear_history_keeps_key_witness :
  messages_list (append_history alice (py "Hello") (py "user") init).2
    !! alice = Some 1%positive
  ∧ history
      (clear_history alice
         (append_history alice (py "Hello") (py "user") init).2).2 alice
    = Some []
  ∧ wf init ∧ messages_list init !! bob = None
  ∧ table (clear_history bob init).2 = table init.
Proof.
  assert (Hkey :
    messages_list (append_history alice (py "Hello") (py "user") init).2
      !! alice = Some 1%positive) by (by vm_compute).
  split; [exact Hkey|].
  destruct (clear_history_keeps_key
              (append_history alice (py "Hello") (py "user") init).2 alice)
    as [Hpresent _].
  destruct (Hpresent _ Hkey) as (w' & Hrun & _ & _ & Hempty & _).
  split; [by rewrite Hrun|].
  split; [exact wf_init|]. split; [reflexivity|].
  destruct (clear_history_keeps_key init bob) as [_ Habsent].
  destruct (Habsent wf_init eq_refl) as (w'' & Hrun' & _ & Htable & _).
  by rewrite Hrun'.
Defined.

Lemma text_handler_quotes_original_witness :
  is_allowed_user [] alice = true
  ∧ takes_as_user_turn [] friendly pong
      (answers alice private_chat (Some (py "pong"))
         (says bob private_chat (Some (py "ping"))))
      {| username := alice |} init
      (py "> " ++ py "ping" ++ py " " ++ [10%N; 10%N] ++ py "pong").
Proof.
  split; [reflexivity|].
  exact (proj1 (text_handler_quotes_original [] friendly pong
                  (answers alice private_chat (Some (py "pong"))
                     (says bob private_chat (Some (py "ping"))))
                  {| username := alice |} (py "pong") 1 init
                  eq_refl eq_refl eq_refl eq_refl eq_refl)
           (says bob private_chat (Some (py "ping"))) (py "ping")
           eq_refl eq_refl).
Defined.

Lemma transcription_failure_aborts_voice_handler_witness :
  is_allowed_user [] alice = true
  ∧ (process_audio_message [] friendly voice_note init).1
    = Raise OpenAITimeout
  ∧ history (process_audio_message [] friendly voice_note init).2 alice
    = history init alice.
Proof.
  split; [reflexivity|].
  destruct (transcription_failure_aborts_voice_handler [] friendly voice_note
              (says alice private_chat None) {| username := alice |} init
              (get_audio_transcription friendly voice_note
                 (recorded init
                    (LogInfo (py "Received message from " ++ alice)))).2
              OpenAITimeout eq_refl eq_refl eq_refl eq_refl)
    as (Hrun & _ & _ & Hhistory & _).
  rewrite Hrun. split; [reflexivity | exact Hhistory].
Defined.

Lemma other_identity_untouched_witness :
  wf (append_history bob (py "Hello") (py "user") init).2
  ∧ alice ≠ bob
  ∧ history
      (append_history alice (py "Hi") (py "user")
         (append_history bob (py "Hello") (py "user") init).2).2 bob
    = history (append_history bob (py "Hello") (py "user") init).2 bob
  ∧ history
      (clear_history alice
         (append_history bob (py "Hello") (py "user") init).2).2 bob
    = history (append_history bob (py "Hello") (py "user") init).2 bob.
Proof.
  assert (Hwf : wf (append_history bob (py "Hello") (py "user") init).2)
    by exact (wf_append_history _ _ _ _ wf_init).
  assert (Hab : alice ≠ bob) by discriminate.
  split; [exact Hwf|]. split; [exact Hab|].
  destruct (other_identity_untouched
              (append_history bob (py "Hello") (py "user") init).2
              alice bob (py "Hi") (py "user") Hwf Hab)
    as [(_ & _ & Happend) (_ & _ & Hclear)].
  split; [exact Happend | exact Hclear].
Defined.

(** ** Start-up *)

Example allow_list_read :
  parse_allowed_usernames ascii_isspace (py " alice , bob,, ,eve")
  = [alice; bob; eve]
  ∧ parse_allowed_usernames ascii_isspace (py "") = []
  ∧ str_split comma (py "a,,b,") = [py "a"; []; py "b"; []].
Proof. by vm_compute. Qed.

Section ConfigurationFacts.

Variable isspace : N → bool.

Lemma str_lstrip_suffix (s : str) : str_lstrip isspace s `suffix_of` s.
Proof.
  induction s as [|c s IH]; simpl; [done|].
  destruct (isspace c); [by apply suffix_cons_r | done].
Qed.

Lemma str_lstrip_head (s : str) (c : N) :
  head (str_lstrip isspace s) = Some c → isspace c = false.
Proof.
  induction s as [|d s IH]; simpl; [done|].
  destruct (isspace d) eqn:Hd; [done|]. simpl. by intros [= <-].
Qed.

Lemma str_lstrip_id (s : str) :
  (∀ c, head s = Some c → isspace c = false) → str_lstrip isspace s = s.
Proof.
  destruct s as [|c s]; simpl; [done|].
  intros Hhead. by rewrite (Hhead c eq_refl).
Qed.

Lemma str_lstrip_blank (s : str) :
  (∀ c, c ∈ s → isspace c = true) → str_lstrip isspace s = [].
Proof.
  induction s as [|c s IH]; simpl; [done|].
  intros Hall. rewrite (Hall c) by apply list_elem_of_here.
  apply IH. intros d Hd. apply Hall. by apply list_elem_of_further.
Qed.

Lemma str_strip_prefix (s : str) :
  str_strip isspace s `prefix_of` str_lstrip isspace s.
Proof.
  unfold str_strip.
  destruct (str_lstrip_suffix (reverse (str_lstrip isspace s))) as [k Hk].
  exists (reverse k). apply (f_equal reverse) in Hk.
  by rewrite reverse_involutive, reverse_app in Hk.
Qed.

Lemma str_strip_elem_of (s : str) (c : N) :
  c ∈ str_strip isspace s → c ∈ s.
Proof.
  intros Hc. destruct (str_strip_prefix s) as [k Hk].
  destruct (str_lstrip_suffix s) as [k' Hk'].
  rewrite Hk', Hk. rewrite !elem_of_app. auto.
Qed.

Lemma str_strip_head (s : str) (c : N) :
  head (str_strip isspace s) = Some c → isspace c = false.
Proof.
  intros Hc. apply (str_lstrip_head s).
  destruct (str_strip_prefix s) as [k ->].
  by destruct (str_strip isspace s).
Qed.

Lemma str_strip_last (s : str) (c : N) :
  last (str_strip isspace s) = Some c → isspace c = false.
Proof.
  unfold str_strip. rewrite last_reverse. apply str_lstrip_head.
Qed.

Lemma str_strip_clean (name : str) :
  clean isspace name → str_strip isspace name = name.
Proof.
  intros (_ & _ & Hhead & Hlast). unfold str_strip.
  rewrite (str_lstrip_id name Hhead).
  rewrite str_lstrip_id; [apply reverse_involutive|].
  intros c. rewrite head_reverse. apply Hlast.
Qed.

Lemma str_strip_blank (s : str) :
  (∀ c, c ∈ s → isspace c = true) → str_strip isspace s = [].
Proof.
  intros Hall. unfold str_strip. by rewrite (str_lstrip_blank s Hall).
Qed.

Lemma str_split_elem_of (sep : N) (s piece : str) (c : N) :
  piece ∈ str_split sep s → c ∈ piece → c ∈ s ∧ c ≠ sep.
Proof.
  revert piece. induction s as [|d s IH]; simpl; intros piece.
  - intros ->%list_elem_of_singleton ?%elem_of_nil. done.
  - case_bool_decide as Hd.
    + intros [->|Hin]%elem_of_cons Hc; [by apply elem_of_nil in Hc|].
      destruct (IH piece Hin Hc). split; [by apply list_elem_of_further|done].
    + destruct (str_split sep s) as [|p ps] eqn:Hsplit.
      * intros ->%list_elem_of_singleton ->%list_elem_of_singleton.
        split; [apply list_elem_of_here | done].
      * intros [->|Hin]%elem_of_cons Hc.
        -- apply elem_of_cons in Hc as [->|Hc];
             [split; [apply list_elem_of_here | done]|].
           destruct (IH p (list_elem_of_here _ _) Hc).
           split; [by apply list_elem_of_further | done].
        -- destruct (IH piece (list_elem_of_further _ _ _ Hin) Hc).
           split; [by apply list_elem_of_further | done].
Qed.

Lemma stripped_nonempty_elem_of (pieces : list str) (name : str) :
  name ∈ stripped_nonempty isspace pieces
  ↔ name ≠ [] ∧ ∃ x, x ∈ pieces ∧ name = str_strip isspace x.
Proof.
  induction pieces as [|x pieces IH]; simpl.
  - split; [by intros ?%elem_of_nil|].
    by intros (_ & ? & ?%elem_of_nil & _).
  - destruct (str_strip isspace x) as [|c name'] eqn:Hx.
    + rewrite IH. split.
      * intros (Hne & y & Hy & ->). split; [done|].
        exists y. split; [by apply list_elem_of_further | done].
      * intros (Hne & y & [->|Hy]%elem_of_cons & ->); [by rewrite Hx in Hne|].
        split; [done|]. by exists y.
    + rewrite elem_of_cons, IH. split.
      * intros [->|(Hne & y & Hy & ->)].
        -- split; [done|]. exists x. split; [apply list_elem_of_here | done].
        -- split; [done|]. exists y.
           split; [by apply list_elem_of_further | done].
      * intros (Hne & y & [->|Hy]%elem_of_cons & ->).
        -- by left.
        -- right. split; [done|]. by exists y.
Qed.

(** X4.  Every name of the allow-list read from the environment is not
    empty, holds no comma, and neither begins nor ends with white space. *)
Theorem parse_allowed_usernames_clean (value name : str) :
  name ∈ parse_allowed_usernames isspace value → clean isspace name.
Proof.
  unfold parse_allowed_usernames. rewrite stripped_nonempty_elem_of.
  intros (Hne & x & Hx & ->). split; [done|]. split; [|split].
  - intros Hcomma%str_strip_elem_of.
    by destruct (str_split_elem_of comma value x comma Hx Hcomma).
  - apply str_strip_head.
  - apply str_strip_last.
Qed.

Lemma str_split_without (sep : N) (s : str) :
  sep ∉ s → str_split sep s = [s].
Proof.
  induction s as [|c s IH]; simpl; [done|].
  intros [Hc Hs]%not_elem_of_cons.
  rewrite bool_decide_eq_false_2 by done. by rewrite (IH Hs).
Qed.

Lemma str_split_app (sep : N) (a b : str) :
  sep ∉ a → str_split sep (a ++ sep :: b) = a :: str_split sep b.
Proof.
  induction a as [|c a IH]; simpl.
  - intros _. by rewrite bool_decide_eq_true_2.
  - intros [Hc Ha]%not_elem_of_cons.
    rewrite bool_decide_eq_false_2 by done. by rewrite (IH Ha).
Qed.

Lemma str_split_join (sep : N) (names : list str) :
  names ≠ [] → Forall (λ name, sep ∉ name) names →
  str_split sep (str_join sep names) = names.
Proof.
  induction names as [|name names IH]; [done|].
  intros _ [Hname Hnames]%Forall_cons.
  destruct names as [|name' names].
  - simpl. by apply str_split_without.
  - change (str_join sep (name :: name' :: names))
      with (name ++ sep :: str_join sep (name' :: names)).
    rewrite (str_split_app _ _ _ Hname). f_equal. by apply IH.
Qed.

Lemma stripped_nonempty_clean (names : list str) :
  Forall (clean isspace) names → stripped_nonempty isspace names = names.
Proof.
  induction 1 as [|name names Hname _ IH]; simpl; [done|].
  rewrite (str_strip_clean name Hname), IH.
  destruct Hname as [Hne _]. by destruct name.
Qed.

(** X5.  A list of clean names, written out with commas between them, is
    read back as it was. *)
Theorem parse_allowed_usernames_join (names : list str) :
  Forall (clean isspace) names →
  parse_allowed_usernames isspace (str_join comma names) = names.
Proof.
  intros Hclean. unfold parse_allowed_usernames.
  destruct names as [|name names]; [reflexivity|].
  rewrite str_split_join; [by apply stripped_nonempty_clean | done |].
  eapply Forall_impl; [exact Hclean|]. by intros x (_ & ? & _).
Qed.

(** X6.  A value of nothing but commas and white space, the empty value
    among them, gives the empty allow-list, and so lets every username
    in. *)
Theorem blank_allow_list_admits_everyone (value username : str) :
  blank isspace value →
  parse_allowed_usernames isspace value = []
  ∧ is_allowed_user (parse_allowed_usernames isspace value) username = true.
Proof.
  intros Hblank.
  assert (Hnil : parse_allowed_usernames isspace value = []).
  { destruct (parse_allowed_usernames isspace value) as [|name names] eqn:Hp;
      [done|].
    assert (Hin : name ∈ parse_allowed_usernames isspace value)
      by (rewrite Hp; apply list_elem_of_here).
    unfold parse_allowed_usernames in Hin.
    apply stripped_nonempty_elem_of in Hin as (Hne & x & Hx & ->).
    destruct Hne. apply str_strip_blank. intros c Hc.
    destruct (str_split_elem_of comma value x c Hx Hc) as [Hcv Hcomma].
    by destruct (Hblank c Hcv). }
  by rewrite Hnil.
Qed.

(** X7.  The module starts exactly when the three variables are set; when
    one is missing the start ends in [KeyError], and no other error is
    possible. *)
Theorem startup_needs_three_variables (environ : gmap str str) :
  (is_Some (environ !! py "TELEGRAM_TOKEN")
   ∧ is_Some (environ !! py "OPENAI_TOKEN")
   ∧ is_Some (environ !! py "ALLOWED_USERNAMES")
   ↔ ∃ settings, startup isspace environ = Ok settings)
  ∧ (∀ e, startup isspace environ = Raise e → e = KeyError).
Proof.
  unfold startup, environ_getitem.
  destruct (environ !! py "TELEGRAM_TOKEN") as [token|];
    [|split; [split; [by intros [[? [=]] _] | by intros [? [=]]]
             | by intros e [= <-]]].
  destruct (environ !! py "OPENAI_TOKEN") as [key|];
    [|split; [split; [by intros (_ & [? [=]] & _) | by intros [? [=]]]
             | by intros e [= <-]]].
  destruct (environ !! py "ALLOWED_USERNAMES") as [value|];
    [|split; [split; [by intros (_ & _ & [? [=]]) | by intros [? [=]]]
             | by intros e [= <-]]].
  split; [|done]. split; [eauto | eauto].
Qed.

End ConfigurationFacts.

Lemma parse_allowed_usernames_clean_witness :
  alice ∈ parse_allowed_usernames ascii_isspace (py " alice , bob,, ,eve")
  ∧ clean ascii_isspace alice.
Proof.
  assert (Hin : alice ∈ parse_allowed_usernames ascii_isspace
                          (py " alice , bob,, ,eve"))
    by (vm_compute; apply list_elem_of_here).
  split; [exact Hin|].
  exact (parse_allowed_usernames_clean ascii_isspace _ _ Hin).
Defined.

Lemma clean_alice_bob : Forall (clean ascii_isspace) [alice; bob].
Proof.
  repeat constructor; try discriminate;
    try (by intros c [= <-]);
    intros Hin; repeat (apply elem_of_cons in Hin as [Hin|Hin];
                        [discriminate|]);
    by apply elem_of_nil in Hin.
Qed.

Lemma parse_allowed_usernames_join_witness :
  Forall (clean ascii_isspace) [alice; bob]
  ∧ parse_allowed_usernames ascii_isspace (py "alice,bob") = [alice; bob].
Proof.
  split; [exact clean_alice_bob|].
  exact (parse_allowed_usernames_join ascii_isspace [alice; bob]
           clean_alice_bob).
Defined.

Lemma blank_commas : blank ascii_isspace (py " , ,").
Proof.
  intros c Hc. unfold py in Hc. simpl in Hc.
  repeat (apply elem_of_cons in Hc as [->|Hc]; [by (left + right)|]).
  by apply elem_of_nil in Hc.
Qed.

Lemma blank_allow_list_admits_everyone_witness :
  blank ascii_isspace (py " , ,")
  ∧ is_allowed_user (parse_allowed_usernames ascii_isspace (py " , ,")) eve
    = true.
Proof.
  split; [exact blank_commas|].
  exact (proj2 (blank_allow_list_admits_everyone ascii_isspace (py " , ,")
                  eve blank_commas)).
Defined.

Lemma startup_needs_three_variables_witness :
  startup ascii_isspace {[ py "TELEGRAM_TOKEN" := py "t" ]} = Raise KeyError
  ∧ KeyError = KeyError.
Proof.
  assert (Hrun : startup ascii_isspace {[ py "TELEGRAM_TOKEN" := py "t" ]}
                 = Raise KeyError) by (by vm_compute).
  split; [exact Hrun|].
  exact (proj2 (startup_needs_three_variables ascii_isspace _) _ Hrun).
Defined.

(** ** The history store: more of what it does *)

Lemma append_history_keys (u c r : str) (w : World) :
  messages_list w ⊆ messages_list (append_history u c r w).2
  ∧ dom (messages_list (append_history u c r w).2)
    = {[u]} ∪ dom (messages_list w).
Proof.
  rewrite append_history_run. simpl. split; [|by rewrite dom_insert_L].
  destruct (messages_list w !! u) as [l|] eqn:Hu.
  - by rewrite (target_lookup _ _ _ Hu), (insert_id _ _ _ Hu).
  - by apply insert_subseteq.
Qed.

Lemma clear_history_keys (u : str) (w : World) :
  messages_list (clear_history u w).2 = messages_list w.
Proof. by rewrite clear_history_run. Qed.

(** X1.  When the new turn fits, that is, the stored contents and the new
    content together stay within 4096 characters, [append_history] evicts
    nothing: the history is the previous one followed by the new turn. *)
Theorem append_history_keeps_all_when_fits (w : World) (username content role : str) :
  total_length (previous w username) + len content ≤ 4096 →
  history (append_history username content role w).2 username
  = Some (previous w username ++ [{| role := role; content := content |}]).
Proof.
  intros Hfits. rewrite history_after_append. f_equal.
  apply trimmed_within.
  rewrite total_length_app, total_length_cons, total_length_nil. simpl. lia.
Qed.

Lemma append_history_keeps_all_when_fits_witness :
  total_length (previous init alice) + len (py "Hello") ≤ 4096
  ∧ history (append_history alice (py "Hello") (py "user") init).2 alice
    = Some [{| role := py "user"; content := py "Hello" |}].
Proof.
  assert (Hfits : total_length (previous init alice) + len (py "Hello") ≤ 4096)
    by (by vm_compute).
  split; [exact Hfits|].
  exact (append_history_keeps_all_when_fits init alice (py "Hello")
           (py "user") Hfits).
Defined.

(** X2.  Neither operation removes a key or binds it to another list
    object: [clear_history] leaves the dict as it is, and [append_history]
    adds its username as a key, if it was none, and nothing else. *)
Theorem store_never_drops_a_key (w : World) (username content role : str) :
  messages_list (clear_history username w).2 = messages_list w
  ∧ messages_list w ⊆ messages_list (append_history username content role w).2
  ∧ dom (messages_list (append_history username content role w).2)
    = {[username]} ∪ dom (messages_list w).
Proof.
  split; [apply clear_history_keys | apply append_history_keys].
Qed.

Lemma run_ops_keys (ops : list Op) (w : World) :
  dom (messages_list (run_ops ops w).2)
  = appended_to ops ∪ dom (messages_list w).
Proof.
  revert w. induction ops as [|op ops IH]; intros w; simpl.
  - set_solver.
  - unfold bind. pose proof (run_op_ok op w) as Hok.
    destruct (run_op op w) as [[[]|e] w'] eqn:Hop; simpl in Hok; [|done].
    rewrite IH. destruct op as [u c r|u]; simpl in Hop.
    + unfold bind in Hop. rewrite append_history_run in Hop.
      injection Hop as <-. simpl. rewrite dom_insert_L. set_solver.
    + rewrite clear_history_run in Hop. by injection Hop as <-.
Qed.

(** X3.  From the empty dict, any run of appends and clears, for any
    usernames, returns normally; afterwards the keys are the usernames
    appended to (a clear makes no key), no two keys share a list object,
    and every stored history is within the budget. *)
Theorem store_invariant_from_empty (ops : list Op) :
  (run_ops ops init).1 = Ok ()
  ∧ dom (messages_list (run_ops ops init).2) = appended_to ops
  ∧ wf (run_ops ops init).2
  ∧ bounded (run_ops ops init).2.
Proof.
  destruct (run_ops_from_init ops) as (Hok & Hwf & Hb).
  split; [done|]. split; [|done].
  rewrite run_ops_keys. unfold init. simpl. set_solver.
Qed.

(** ** What every handler keeps *)

Lemma grows_refl (w : World) : grows w w.
Proof. by split. Qed.

Lemma grows_trans (w1 w2 w3 : World) : grows w1 w2 → grows w2 w3 → grows w1 w3.
Proof. intros [? ?] [? ?]. split; by etrans. Qed.

Lemma grows_recorded (w : World) (a : Action) : grows w (recorded w a).
Proof. split; [done|]. by exists [a]. Qed.

Lemma inv_recorded (w : World) (a : Action) : inv w → inv (recorded w a).
Proof. done. Qed.

Lemma keeps_unchanged {A} (m : M A) : (∀ w, (m w).2 = w) → keeps m.
Proof. intros Hm w. rewrite Hm. split; [apply grows_refl | done]. Qed.

Lemma keeps_ret {A} (a : A) : keeps (ret a).
Proof. by apply keeps_unchanged. Qed.

Lemma keeps_raise {A} (e : exn) : keeps (@raise A e).
Proof. by apply keeps_unchanged. Qed.

Lemma keeps_lift {A} (r : result A) : keeps (lift r).
Proof. by apply keeps_unchanged. Qed.

Lemma keeps_bind {A B} (m : M A) (k : A → M B) :
  keeps m → (∀ a, keeps (k a)) → keeps (bind m k).
Proof.
  intros Hm Hk w. unfold bind. destruct (Hm w) as [Hgrows Hinv].
  destruct (m w) as [[a|e] w1]; simpl in *; [|done].
  destruct (Hk a w1) as [Hgrows' Hinv'].
  split; [by eapply grows_trans | auto].
Qed.

Lemma keeps_try_except {A} (m : M A) (h : exn → M A) :
  keeps m → (∀ e, keeps (h e)) → keeps (try_except m h).
Proof.
  intros Hm Hh w. unfold try_except. destruct (Hm w) as [Hgrows Hinv].
  destruct (m w) as [[a|e] w1]; simpl in *; [done|].
  destruct (is_Exception e); [|done].
  destruct (Hh e w1) as [Hgrows' Hinv'].
  split; [by eapply grows_trans | auto].
Qed.

Lemma keeps_external {A} (a : Action) (outcome : list Action → result A) :
  keeps (external a outcome).
Proof.
  intros w. unfold external. simpl.
  split; [apply grows_recorded | apply inv_recorded].
Qed.

Lemma keeps_attr {A} (o : option A) : keeps (attr o).
Proof. destruct o; [apply keeps_ret | apply keeps_raise]. Qed.

Lemma keeps_subscript (d : gmap str str) (key : str) : keeps (subscript d key).
Proof.
  unfold subscript. destruct (d !! key); [apply keeps_ret | apply keeps_raise].
Qed.

Lemma keeps_index0 {A} (l : list A) : keeps (index0 l).
Proof. destruct l; [apply keeps_raise | apply keeps_ret]. Qed.

Lemma keeps_str_add (a : str) (b : option str) : keeps (str_add a b).
Proof. destruct b; [apply keeps_ret | apply keeps_raise]. Qed.

Lemma keeps_list_read (l : loc) : keeps (list_read l).
Proof. by apply keeps_unchanged. Qed.

Lemma keeps_random_choice {A} (env : Env) (seq : list A) :
  keeps (random_choice env seq).
Proof.
  apply keeps_unchanged. intros w. unfold random_choice.
  by destruct (seq !! _).
Qed.

Lemma history_garbage (w : World) (msgs : list Turn) (u : str) :
  wf w →
  history {| messages_list := messages_list w;
             heap := <[fresh (dom (heap w)) := msgs]> (heap w);
             trace := trace w |} u
  = history w u.
Proof.
  intros Hwf. unfold history. simpl.
  destruct (messages_list w !! u) as [l|] eqn:Hu; [simpl|done].
  rewrite lookup_insert_ne; [done|].
  intros Heq. by apply (fresh_not_stored w u l).
Qed.

Lemma keeps_dict_get (u : str) : keeps (dict_get u).
Proof.
  intros w. unfold dict_get, list_new.
  destruct (messages_list w !! u); simpl; [by split; [apply grows_refl|]|].
  split; [by split|]. intros [Hwf Hb]. split; [by apply wf_garbage|].
  intros v h. rewrite history_garbage by done. apply Hb.
Qed.

Lemma keeps_append_history (u c r : str) : keeps (append_history u c r).
Proof.
  intros w. split.
  - split; [apply append_history_keys|]. by rewrite append_history_run.
  - intros Hinv. pose proof (run_op_invariant (Append u c r) w Hinv) as Hop.
    simpl in Hop. unfold bind in Hop. by rewrite append_history_run in *.
Qed.

Lemma keeps_clear_history (u : str) : keeps (clear_history u).
Proof.
  intros w. split.
  - split; [by rewrite clear_history_keys|]. by rewrite clear_history_run.
  - apply (run_op_invariant (Clear u) w).
Qed.

Lemma keeps_sender (update : Update) : keeps (sender update).
Proof.
  unfold sender. apply keeps_bind; [apply keeps_attr|]. intros msg.
  apply keeps_bind; [apply keeps_attr|]. intros user. apply keeps_ret.
Qed.

Lemma keeps_effective_chat_id (update : Update) :
  keeps (effective_chat_id update).
Proof.
  unfold effective_chat_id. apply keeps_bind; [apply keeps_attr|].
  intros c. apply keeps_ret.
Qed.

Create HintDb keeps discriminated.
#[local] Hint Resolve keeps_ret keeps_raise keeps_lift keeps_external
  keeps_attr keeps_subscript keeps_index0 keeps_str_add keeps_list_read
  keeps_random_choice keeps_dict_get keeps_append_history
  keeps_clear_history keeps_sender keeps_effective_chat_id : keeps.

Ltac keeps_step :=
  first
    [ solve [auto with keeps]
    | apply keeps_bind; [|intros ?]
    | apply keeps_try_except; [|intros ?]
    | match goal with
      | |- keeps (if ?b then _ else _) => destruct b
      | |- keeps (match ?o with _ => _ end) => destruct o
      end ].

Lemma keeps_handle_allowed_usernames
    (allowed_usernames : list str) (env : Env) (update : Update) :
  keeps (handle_allowed_usernames allowed_usernames env update).
Proof.
  unfold handle_allowed_usernames, logger_info, send_message.
  repeat keeps_step.
Qed.

Lemma keeps_generate_gpt_response (env : Env) (u : str) :
  keeps (generate_gpt_response env u).
Proof. unfold generate_gpt_response. repeat keeps_step. Qed.

Lemma keeps_get_audio_transcription (env : Env) (update : Update) :
  keeps (get_audio_transcription env update).
Proof. unfold get_audio_transcription. repeat keeps_step. Qed.

#[local] Hint Resolve keeps_handle_allowed_usernames
  keeps_generate_gpt_response keeps_get_audio_transcription : keeps.

Lemma keeps_process_text_message
    (allowed_usernames : list str) (env : Env) (update : Update) :
  keeps (process_text_message allowed_usernames env update).
Proof.
  unfold process_text_message, send_message, deleteMessage.
  repeat keeps_step.
Qed.

Lemma keeps_process_audio_message
    (allowed_usernames : list str) (env : Env) (update : Update) :
  keeps (process_audio_message allowed_usernames env update).
Proof. unfold process_audio_message, send_message. repeat keeps_step. Qed.

Lemma keeps_reset_history
    (allowed_usernames : list str) (env : Env) (update : Update) :
  keeps (reset_history allowed_usernames env update).
Proof.
  unfold reset_history, send_message. repeat keeps_step.
  by apply keeps_unchanged.
Qed.

Lemma inv_init : inv init.
Proof. split; [apply wf_init | apply bounded_init]. Qed.

Lemma keeps_handle (allowed_usernames : list str) (ev : Event) (w : World) :
  grows w (handle allowed_usernames ev w)
  ∧ (inv w → inv (handle allowed_usernames ev w)).
Proof.
  destruct ev as [env update|env update|env update]; simpl.
  - apply keeps_process_text_message.
  - apply keeps_process_audio_message.
  - apply keeps_reset_history.
Qed.

(** X22.  For events as the handlers are registered for them (the message
    of a text event has a text) and services that answer with strings (a
    candidate's content, a transcript) or fail: whatever such events the
    three handlers are run on, one after the other, and whichever outside
    call fails during a run, no two usernames ever share a list object,
    every stored history stays within 4096 characters, every key stays a
    key bound to the same list object, and the trace only gets longer. *)
Theorem handlers_keep_the_invariant
    (allowed_usernames : list str) (evs : list Event) (w : World) :
  Forall dispatched evs →
  inv w →
  inv (handle_all allowed_usernames evs w)
  ∧ grows w (handle_all allowed_usernames evs w).
Proof.
  intros _. revert w.
  induction evs as [|ev evs IH]; intros w Hinv; simpl.
  - split; [done | apply grows_refl].
  - destruct (keeps_handle allowed_usernames ev w) as [Hgrows Hkeep].
    destruct (IH _ (Hkeep Hinv)) as [Hinv' Hgrows'].
    split; [done | by eapply grows_trans].
Qed.

Lemma handlers_keep_the_invariant_witness :
  Forall dispatched
    [TextMessage friendly hello; ResetCommand timing_out hello;
     VoiceMessage friendly voice_note; TextMessage timing_out pong]
  ∧ inv init
  ∧ inv (handle_all []
           [TextMessage friendly hello; ResetCommand timing_out hello;
            VoiceMessage friendly voice_note; TextMessage timing_out pong]
           init).
Proof.
  assert (Hevs :
    Forall dispatched
      [TextMessage friendly hello; ResetCommand timing_out hello;
       VoiceMessage friendly voice_note; TextMessage timing_out pong]).
  { repeat constructor; intros msg [= <-]; discriminate. }
  split; [exact Hevs|]. split; [exact inv_init|].
  exact (proj1 (handlers_keep_the_invariant [] _ init Hevs inv_init)).
Defined.

(** ** The text handler, step by step *)

Lemma effective_input_run (msg : Message) (effective : str) (w1 : World) :
  effective_input msg = Some effective →
  match reply_to_message msg with
  | Some original =>
      quoted <- str_add (py "> ") (text original) ;;
      str_add (quoted ++ py " " ++ [10%N; 10%N]) (text msg)
  | None => str_add [] (text msg)
  end w1 = (Ok effective, w1).
Proof.
  unfold effective_input, bind, str_add, ret.
  destruct (reply_to_message msg) as [original|].
  - destruct (text original) as [quoted|]; [|done].
    destruct (text msg) as [msg_text|]; [|done].
    intros [= <-]. by rewrite <- !app_assoc.
  - by intros ->.
Qed.

(** The handler after the gate: the user's turn appended, the completion
    asked for, and on a response the assistant's turn appended and the
    response delivered. *)
Lemma process_text_message_run
    (allowed_usernames : list str) (env : Env) (update : Update)
    (msg : Message) (user : User) (thinking : Z) (w : World)
    (effective : str) :
  message update = Some msg → from_user msg = Some user →
  is_allowed_user allowed_usernames (username user) = true →
  send_message_outcome env
    (trace w ++ [LogInfo (py "Received message from " ++ username user)])
    (chat_id (chat msg)) [129300%N]
  = Ok thinking →
  effective_input msg = Some effective →
  process_text_message allowed_usernames env update w
  = match
      generate_gpt_response env (username user)
        (append_history (username user) effective (py "user")
           (placeholder_sent w user msg)).2
    with
    | (Ok response, w3) =>
        deliver env thinking (chat_id (chat msg)) response
          (append_history (username user) response (py "assistant") w3).2
    | (Raise e, w3) => (Raise e, w3)
    end.
Proof.
  intros Hmsg Huser Hallowed Hthinking Hinput.
  unfold process_text_message, bind.
  rewrite (handle_allowed_usernames_run _ _ _ _ _ _ Hmsg Huser), Hallowed.
  cbn [negb]. rewrite (effective_chat_id_run _ _ _ Hmsg).
  unfold send_message at 1. unfold external at 1. cbn [trace recorded].
  rewrite Hthinking. unfold attr at 1. rewrite Hmsg. unfold ret at 1.
  pose proof (λ w1, effective_input_run msg effective w1 Hinput) as Hrun.
  unfold bind in Hrun. rewrite Hrun. clear Hrun.
  rewrite (sender_run _ _ _ _ Hmsg Huser).
  fold (placeholder_sent w user msg).
  destruct (append_history_summary (username user) effective (py "user")
              (placeholder_sent w user msg)) as (l & w2 & Happ & _).
  rewrite Happ, (sender_run _ _ _ _ Hmsg Huser). cbn [snd].
  destruct (generate_gpt_response env (username user) w2)
    as [[response|e] w3]; [|done].
  rewrite (sender_run _ _ _ _ Hmsg Huser).
  destruct (append_history_summary (username user) response (py "assistant")
              w3) as (l' & w4 & Happ' & _).
  rewrite Happ'. cbn [snd]. unfold attr, ret.
  unfold deleteMessage, send_message, external, deliver.
  rewrite (effective_chat_id_run _ _ _ Hmsg).
  destruct (deleteMessage_outcome _ _ _ _) as [[]|e]; [|done].
  cbn [trace recorded]. by destruct (send_message_outcome env _ _ response).
Qed.

(** The request and the world of [generate_gpt_response] for a username
    that is a key. *)
Lemma generate_gpt_response_for_key (env : Env) (u : str) (l : loc) (w : World) :
  messages_list w !! u = Some l →
  (generate_gpt_response env u w).2
  = recorded w (completion_request (previous w u)).
Proof.
  intros Hu. destruct (generate_gpt_response_request env u w)
    as (w1 & Hgen & _ & _ & Hsame).
  by rewrite Hgen, (Hsame l Hu).
Qed.

(** The world before the completion is asked for. *)
Lemma user_turn_stored (w : World) (user : User) (msg : Message)
    (effective : str) :
  ∃ l w2,
    append_history (username user) effective (py "user")
      (placeholder_sent w user msg) = (Ok l, w2)
    ∧ messages_list w2 !! username user = Some l
    ∧ previous w2 (username user)
      = trimmed (previous w (username user)
                 ++ [{| role := py "user"; content := effective |}])
    ∧ trace w2
      = trace w ++ [LogInfo (py "Received message from " ++ username user);
                    SendMessage (chat_id (chat msg)) [129300%N]].
Proof.
  destruct (append_history_summary (username user) effective (py "user")
              (placeholder_sent w user msg))
    as (l & w2 & Happ & Hl & Hhist & Htrace).
  exists l, w2. split; [done|]. split; [done|]. split.
  - unfold previous at 1. by rewrite Hhist.
  - rewrite Htrace. simpl. by rewrite <- app_assoc.
Qed.

Lemma completion_after_user_turn
    (env : Env) (w : World) (user : User) (msg : Message) (effective : str) :
  ChatCompletion_create_outcome env
    (trace (append_history (username user) effective (py "user")
              (placeholder_sent w user msg)).2)
    (previous (append_history (username user) effective (py "user")
                 (placeholder_sent w user msg)).2 (username user))
  = ChatCompletion_create_outcome env (trace (placeholder_sent w user msg))
      (with_user_turn w user effective).
Proof.
  destruct (append_history_summary (username user) effective (py "user")
              (placeholder_sent w user msg))
    as (l & w2 & Happ & _ & Hhist & Htrace).
  rewrite Happ. cbn [snd]. unfold previous at 1. by rewrite Hhist, Htrace.
Qed.

Lemma text_handler_outcome
    (allowed_usernames : list str) (env : Env) (update : Update)
    (msg : Message) (user : User) (thinking : Z) (w : World)
    (effective : str) :
  message update = Some msg → from_user msg = Some user →
  is_allowed_user allowed_usernames (username user) = true →
  send_message_outcome env
    (trace w ++ [LogInfo (py "Received message from " ++ username user)])
    (chat_id (chat msg)) [129300%N]
  = Ok thinking →
  effective_input msg = Some effective →
  match
    (generate_gpt_response env (username user)
       (append_history (username user) effective (py "user")
          (placeholder_sent w user msg)).2).1
  with
  | Ok response =>
      ∃ w4,
        process_text_message allowed_usernames env update w
        = deliver env thinking (chat_id (chat msg)) response w4
        ∧ messages_list w4 !! username user ≠ None
        ∧ history w4 (username user)
          = Some (with_assistant_turn (with_user_turn w user effective)
                    response)
        ∧ trace w4
          = trace (placeholder_sent w user msg)
            ++ [completion_request (with_user_turn w user effective)]
  | Raise e =>
      ∃ w3,
        process_text_message allowed_usernames env update w = (Raise e, w3)
        ∧ history w3 (username user)
          = Some (with_user_turn w user effective)
        ∧ trace w3
          = trace (placeholder_sent w user msg)
            ++ [completion_request (with_user_turn w user effective)]
  end.
Proof.
  intros Hmsg Huser Hallowed Hthinking Hinput.
  rewrite (process_text_message_run _ _ _ _ _ _ _ _
             Hmsg Huser Hallowed Hthinking Hinput).
  destruct (append_history_summary (username user) effective (py "user")
              (placeholder_sent w user msg))
    as (l & w2 & Happ & Hl & Hhist & Htrace).
  rewrite Happ. cbn [snd].
  pose proof (generate_gpt_response_for_key env _ l w2 Hl) as Hgen.
  assert (Hprev : previous w2 (username user)
                  = with_user_turn w user effective)
    by (unfold previous at 1; by rewrite Hhist).
  rewrite Hprev in Hgen.
  destruct (generate_gpt_response env (username user) w2)
    as [[response|e] w3]; cbn [fst snd] in *; subst w3.
  - destruct (append_history_summary (username user) response
                (py "assistant")
                (recorded w2 (completion_request
                                (with_user_turn w user effective))))
      as (l' & w4 & Happ' & Hl' & Hhist' & Htrace').
    rewrite Happ'. cbn [snd]. exists w4. split; [done|].
    split; [by rewrite Hl'|]. split.
    + by rewrite Hhist', previous_recorded, Hprev.
    + rewrite Htrace'. simpl. by rewrite Htrace.
  - eexists. split; [done|]. split.
    + by rewrite history_recorded.
    + simpl. by rewrite Htrace.
Qed.

(** X8.  With every outside call answered without error and a candidate
    with a content returned, the text handler of an allowed sender returns
    normally: the history holds the user's turn and then the content as the
    assistant's turn (each append trimmed), and the handler has, in this
    order, sent the placeholder, asked for the completion with the history
    that ends in the user's turn, deleted the placeholder and sent the
    content to the chat. *)
Theorem text_handler_delivers_completion
    (allowed_usernames : list str) (env : Env) (update : Update)
    (msg : Message) (user : User) (thinking sent : Z) (w : World)
    (effective response : str) (completion : Completion) (c : Choice)
    (rest : list Choice) :
  message update = Some msg → from_user msg = Some user →
  is_allowed_user allowed_usernames (username user) = true →
  send_message_outcome env
    (trace w ++ [LogInfo (py "Received message from " ++ username user)])
    (chat_id (chat msg)) [129300%N]
  = Ok thinking →
  effective_input msg = Some effective →
  ChatCompletion_create_outcome env (trace (placeholder_sent w user msg))
    (with_user_turn w user effective)
  = Ok completion →
  choices completion = c :: rest →
  choice_message c !! py "content" = Some response →
  deleteMessage_outcome env
    (trace (placeholder_sent w user msg)
     ++ [completion_request (with_user_turn w user effective)])
    thinking (chat_id (chat msg))
  = Ok () →
  send_message_outcome env
    ((trace (placeholder_sent w user msg)
      ++ [completion_request (with_user_turn w user effective)])
     ++ [DeleteMessage thinking (chat_id (chat msg))])
    (chat_id (chat msg)) response
  = Ok sent →
  ∃ w',
    process_text_message allowed_usernames env update w = (Ok (), w')
    ∧ history w' (username user)
      = Some (with_assistant_turn (with_user_turn w user effective) response)
    ∧ trace w'
      = trace w
        ++ [LogInfo (py "Received message from " ++ username user);
            SendMessage (chat_id (chat msg)) [129300%N];
            completion_request (with_user_turn w user effective);
            DeleteMessage thinking (chat_id (chat msg));
            SendMessage (chat_id (chat msg)) response].
Proof.
  intros Hmsg Huser Hallowed Hthinking Hinput Hcompletion Hchoices Hcontent
    Hdelete Hsend.
  pose proof (text_handler_outcome _ _ _ _ _ _ _ _
                Hmsg Huser Hallowed Hthinking Hinput) as Hout.
  pose proof (generate_gpt_response_cases env (username user)
                (append_history (username user) effective (py "user")
                   (placeholder_sent w user msg)).2) as Hcases.
  rewrite completion_after_user_turn, Hcompletion in Hcases.
  destruct completion as [cs]. simpl in Hchoices. subst cs.
  rewrite Hcontent in Hcases. rewrite Hcases in Hout.
  destruct Hout as (w4 & Hrun & _ & Hhist & Htrace).
  rewrite Hrun. unfold deliver. rewrite Htrace, Hdelete, Hsend.
  eexists. split; [done|]. split; [done|].
  simpl. rewrite Htrace. simpl. by rewrite <- !app_assoc.
Qed.

Lemma text_handler_delivers_completion_witness :
  is_allowed_user [] alice = true
  ∧ effective_input (says alice private_chat (Some (py "Hello")))
    = Some (py "Hello")
  ∧ ∃ w',
      process_text_message [] friendly hello init = (Ok (), w')
      ∧ history w' alice
        = Some (with_assistant_turn
                  (with_user_turn init {| username := alice |} (py "Hello"))
                  (py "Hi there")).
Proof.
  split; [reflexivity|]. split; [reflexivity|].
  destruct (text_handler_delivers_completion [] friendly hello
              (says alice private_chat (Some (py "Hello")))
              {| username := alice |} 1 4 init (py "Hello") (py "Hi there")
              _ _ [] eq_refl eq_refl eq_refl eq_refl eq_refl eq_refl
              eq_refl eq_refl eq_refl eq_refl)
    as (w' & Hrun & Hhist & _).
  exists w'. by split.
Defined.

(** X9.  When the completion call raises an [Exception], the text handler
    of an allowed sender goes on as if a response had come: a string of the
    fallback pool is appended as the assistant's turn, so it is part of the
    history sent with later requests, and, the placeholder deleted, that
    same string is what is sent to the chat. *)
Theorem text_handler_remembers_fallback
    (allowed_usernames : list str) (env : Env) (update : Update)
    (msg : Message) (user : User) (thinking : Z) (w : World)
    (effective : str) (e : exn) :
  message update = Some msg → from_user msg = Some user →
  is_allowed_user allowed_usernames (username user) = true →
  send_message_outcome env
    (trace w ++ [LogInfo (py "Received message from " ++ username user)])
    (chat_id (chat msg)) [129300%N]
  = Ok thinking →
  effective_input msg = Some effective →
  ChatCompletion_create_outcome env (trace (placeholder_sent w user msg))
    (with_user_turn w user effective)
  = Raise e →
  is_Exception e = true →
  deleteMessage_outcome env
    (trace (placeholder_sent w user msg)
     ++ [completion_request (with_user_turn w user effective)])
    thinking (chat_id (chat msg))
  = Ok () →
  ∃ s,
    s ∈ fallback_choices
    ∧ history (process_text_message allowed_usernames env update w).2
        (username user)
      = Some (with_assistant_turn (with_user_turn w user effective) s)
    ∧ trace (process_text_message allowed_usernames env update w).2
      = trace w
        ++ [LogInfo (py "Received message from " ++ username user);
            SendMessage (chat_id (chat msg)) [129300%N];
            completion_request (with_user_turn w user effective);
            DeleteMessage thinking (chat_id (chat msg));
            SendMessage (chat_id (chat msg)) s].
Proof.
  intros Hmsg Huser Hallowed Hthinking Hinput Hcompletion Hexc Hdelete.
  pose proof (text_handler_outcome _ _ _ _ _ _ _ _
                Hmsg Huser Hallowed Hthinking Hinput) as Hout.
  pose proof (generate_gpt_response_cases env (username user)
                (append_history (username user) effective (py "user")
                   (placeholder_sent w user msg)).2) as Hcases.
  rewrite completion_after_user_turn, Hcompletion, Hexc in Hcases.
  destruct Hcases as (s & Hs & Hin & _). rewrite Hs in Hout.
  destruct Hout as (w4 & Hrun & _ & Hhist & Htrace).
  exists s. split; [done|].
  rewrite Hrun. unfold deliver. rewrite Htrace, Hdelete.
  split; [done|]. simpl. rewrite Htrace. simpl. by rewrite <- !app_assoc.
Qed.

Lemma text_handler_remembers_fallback_witness :
  is_allowed_user [] alice = true
  ∧ is_Exception OpenAITimeout = true
  ∧ ∃ s,
      s ∈ fallback_choices
      ∧ history (process_text_message [] timing_out hello init).2 alice
        = Some (with_assistant_turn
                  (with_user_turn init {| username := alice |} (py "Hello"))
                  s).
Proof.
  split; [reflexivity|]. split; [reflexivity|].
  destruct (text_handler_remembers_fallback [] timing_out hello
              (says alice private_chat (Some (py "Hello")))
              {| username := alice |} 1 init (py "Hello") OpenAITimeout
              eq_refl eq_refl eq_refl eq_refl eq_refl eq_refl eq_refl
              eq_refl)
    as (s & Hin & Hhist & _).
  exists s. by split.
Defined.


(** X11.  When sending the placeholder fails, the text handler of an
    allowed sender ends with that exception before anything else: the dict
    and every list object are as before, and no completion is asked for. *)
Theorem text_handler_placeholder_failure
    (allowed_usernames : list str) (env : Env) (update : Update)
    (msg : Message) (user : User) (w : World) (e : exn) :
  message update = Some msg → from_user msg = Some user →
  is_allowed_user allowed_usernames (username user) = true →
  send_message_outcome env
    (trace w ++ [LogInfo (py "Received message from " ++ username user)])
    (chat_id (chat msg)) [129300%N]
  = Raise e →
  process_text_message allowed_usernames env update w
  = (Raise e, placeholder_sent w user msg)
  ∧ messages_list (placeholder_sent w user msg) = messages_list w
  ∧ heap (placeholder_sent w user msg) = heap w
  ∧ trace (placeholder_sent w user msg)
    = trace w
      ++ [LogInfo (py "Received message from " ++ username user);
          SendMessage (chat_id (chat msg)) [129300%N]].
Proof.
  intros Hmsg Huser Hallowed Hthinking. split.
  - unfold process_text_message, bind.
    rewrite (handle_allowed_usernames_run _ _ _ _ _ _ Hmsg Huser), Hallowed.
    cbn [negb]. rewrite (effective_chat_id_run _ _ _ Hmsg).
    unfold send_message, external. cbn [trace recorded].
    by rewrite Hthinking.
  - split; [done|]. split; [done|]. simpl. by rewrite <- app_assoc.
Qed.

(** X12.  A reply for which the handler can make no input, because the
    message answered, or the new one, has no text, ends the text handler in
    [TypeError] once the placeholder is sent: nothing is appended, no
    completion is asked for, and the placeholder stays in the chat. *)
Theorem text_handler_reply_without_text
    (allowed_usernames : list str) (env : Env) (update : Update)
    (msg original : Message) (user : User) (thinking : Z) (w : World) :
  message update = Some msg → from_user msg = Some user →
  is_allowed_user allowed_usernames (username user) = true →
  send_message_outcome env
    (trace w ++ [LogInfo (py "Received message from " ++ username user)])
    (chat_id (chat msg)) [129300%N]
  = Ok thinking →
  reply_to_message msg = Some original →
  effective_input msg = None →
  process_text_message allowed_usernames env update w
  = (Raise TypeError, placeholder_sent w user msg).
Proof.
  intros Hmsg Huser Hallowed Hthinking Hreply Hnone.
  unfold process_text_message, bind.
  rewrite (handle_allowed_usernames_run _ _ _ _ _ _ Hmsg Huser), Hallowed.
  cbn [negb]. rewrite (effective_chat_id_run _ _ _ Hmsg).
  unfold send_message at 1. unfold external at 1. cbn [trace recorded].
  rewrite Hthinking. unfold attr at 1. rewrite Hmsg. unfold ret at 1.
  rewrite Hreply. unfold effective_input in Hnone. rewrite Hreply in Hnone.
  unfold str_add, raise, ret.
  destruct (text original) as [quoted|]; [|done].
  by destruct (text msg).
Qed.

(** X13.  When the input the handler makes is longer than 4096 characters,
    as a quoted reply can be, the user's turn is evicted as soon as it is
    appended: the completion is asked for with no message at all. *)
Theorem text_handler_oversized_input
    (allowed_usernames : list str) (env : Env) (update : Update)
    (msg : Message) (user : User) (thinking : Z) (w : World)
    (effective : str) :
  message update = Some msg → from_user msg = Some user →
  is_allowed_user allowed_usernames (username user) = true →
  send_message_outcome env
    (trace w ++ [LogInfo (py "Received message from " ++ username user)])
    (chat_id (chat msg)) [129300%N]
  = Ok thinking →
  effective_input msg = Some effective →
  len effective > 4096 →
  ∃ rest,
    trace (process_text_message allowed_usernames env update w).2
    = trace w
      ++ [LogInfo (py "Received message from " ++ username user);
          SendMessage (chat_id (chat msg)) [129300%N];
          completion_request []]
      ++ rest.
Proof.
  intros Hmsg Huser Hallowed Hthinking Hinput Hbig.
  pose proof (text_handler_outcome _ _ _ _ _ _ _ _
                Hmsg Huser Hallowed Hthinking Hinput) as Hout.
  assert (Hempty : with_user_turn w user effective = [])
    by (by apply trimmed_snoc_oversized).
  rewrite Hempty in Hout.
  destruct (generate_gpt_response _ _ _).1 as [response|e].
  - destruct Hout as (w4 & Hrun & _ & _ & Htrace). rewrite Hrun.
    unfold deliver.
    destruct (deleteMessage_outcome _ _ _ _) as [[]|e]; simpl;
      rewrite Htrace; simpl; rewrite <- !app_assoc; simpl.
    + by eexists [_; _].
    + by eexists [_].
  - destruct Hout as (w3 & Hrun & _ & Htrace). rewrite Hrun. simpl.
    rewrite Htrace. simpl. rewrite <- !app_assoc. by exists [].
Qed.

(** ** The completion call, the gate and the other handlers *)

Lemma generate_gpt_response_world (env : Env) (u : str) (w : World) :
  (generate_gpt_response env u w).2
  = recorded (dict_get u w).2 (completion_request (previous w u)).
Proof.
  unfold generate_gpt_response, try_except, bind, dict_get, list_read,
    list_new, external, index0, subscript, previous, history,
    completion_request.
  destruct (messages_list w !! u) as [l|] eqn:Hu; simpl;
    rewrite ?lookup_insert_eq; simpl;
    (destruct (ChatCompletion_create_outcome _ _ _) as [[[|c cs]]|e]; simpl;
     [ by draw_fallback env
     | destruct (choice_message c !! py "content"); simpl;
       [done | by draw_fallback env]
     | destruct (is_Exception e); [by draw_fallback env | done] ]).
Qed.

(** X14.  [generate_gpt_response] asks the completion service exactly once,
    with model ["gpt-4"], one candidate, timeouts 80 and 60, and the
    history stored for the username (no message for a username that is no
    key); it does nothing else outside, makes no key, and in a well-formed
    world leaves every history as it is. *)
Theorem generate_gpt_response_asks_once (env : Env) (username : str) (w : World) :
  trace (generate_gpt_response env username w).2
  = trace w
    ++ [ChatCompletionCreate (py "gpt-4") 1 (previous w username) 80 60]
  ∧ messages_list (generate_gpt_response env username w).2 = messages_list w
  ∧ (wf w →
     ∀ other, history (generate_gpt_response env username w).2 other
              = history w other).
Proof.
  rewrite generate_gpt_response_world. unfold dict_get, list_new.
  destruct (messages_list w !! username); simpl; [done|].
  split; [done|]. split; [done|]. intros Hwf other.
  by apply (history_garbage w [] other).
Qed.

Lemma generate_gpt_response_asks_once_witness :
  wf init
  ∧ history (generate_gpt_response friendly alice init).2 alice
    = history init alice.
Proof.
  split; [exact wf_init|].
  exact (proj2 (proj2 (generate_gpt_response_asks_once friendly alice init))
           wf_init alice).
Defined.

(** X15.  [generate_gpt_response] raises only what the completion call
    raises and [except Exception] does not catch: it ends in an exception
    exactly when the call raised it and it is no [Exception]
    ([KeyboardInterrupt], [SystemExit]). *)
Theorem generate_gpt_response_raises_iff
    (env : Env) (username : str) (w : World) (e : exn) :
  (generate_gpt_response env username w).1 = Raise e
  ↔ ChatCompletion_create_outcome env (trace w) (previous w username)
    = Raise e
    ∧ is_Exception e = false.
Proof.
  pose proof (generate_gpt_response_cases env username w) as Hcases.
  destruct (ChatCompletion_create_outcome env (trace w) (previous w username))
    as [[[|c cs]]|e'].
  - destruct Hcases as (s & -> & _). split; [done | by intros [? _]].
  - destruct (choice_message c !! py "content") as [s|].
    + rewrite Hcases. split; [done | by intros [? _]].
    + destruct Hcases as (s & -> & _). split; [done | by intros [? _]].
  - destruct (is_Exception e') eqn:He'.
    + destruct Hcases as (s & -> & _).
      split; [done | intros [[= ->] ?]; congruence].
    + rewrite Hcases. split.
      * by intros [= <-].
      * by intros [[= <-] _].
Qed.

(** X16.  For an update with a message and a sender,
    [handle_allowed_usernames] returns [True] exactly for an allowed
    username, and then it sends nothing; for any other username it sends
    the refusal.  Either way it writes the log line first and touches
    neither the dict nor a list object. *)
Theorem handle_allowed_usernames_gate
    (allowed_usernames : list str) (env : Env) (update : Update)
    (msg : Message) (user : User) (w : World) :
  message update = Some msg → from_user msg = Some user →
  ((handle_allowed_usernames allowed_usernames env update w).1 = Ok true
   ↔ is_allowed_user allowed_usernames (username user) = true)
  ∧ trace (handle_allowed_usernames allowed_usernames env update w).2
    = trace w
      ++ LogInfo (py "Received message from " ++ username user)
         :: (if is_allowed_user allowed_usernames (username user) then []
             else [SendMessage (chat_id (chat msg))
                     (py "Sorry, you are not allowed to use this bot")])
  ∧ messages_list (handle_allowed_usernames allowed_usernames env update w).2
    = messages_list w
  ∧ heap (handle_allowed_usernames allowed_usernames env update w).2
    = heap w.
Proof.
  intros Hmsg Huser.
  rewrite (handle_allowed_usernames_run _ _ _ _ _ _ Hmsg Huser).
  destruct (is_allowed_user allowed_usernames (username user)); simpl.
  - done.
  - rewrite <- app_assoc. split; [|done].
    by destruct (send_message_outcome _ _ _ _).
Qed.

Lemma handle_allowed_usernames_gate_witness :
  (handle_allowed_usernames [alice] friendly hello init).1 = Ok true
  ↔ is_allowed_user [alice] alice = true.
Proof.
  exact (proj1 (handle_allowed_usernames_gate [alice] friendly hello
                  (says alice private_chat (Some (py "Hello")))
                  {| username := alice |} init eq_refl eq_refl)).
Defined.

Lemma sender_missing (update : Update) (w : World) :
  message update = None
  ∨ (∃ msg, message update = Some msg ∧ from_user msg = None) →
  sender update w = (Raise AttributeError, w).
Proof.
  unfold sender, bind, attr.
  intros [->|(msg & -> & Huser)]; [done|]. simpl. by rewrite Huser.
Qed.

(** X17.  An update without a message, or whose message has no sender, ends
    each of the three handlers in [AttributeError] at their first line:
    nothing is logged, sent, asked for or stored. *)
Theorem handlers_need_a_sender
    (allowed_usernames : list str) (env : Env) (update : Update) (w : World) :
  message update = None
  ∨ (∃ msg, message update = Some msg ∧ from_user msg = None) →
  process_text_message allowed_usernames env update w
  = (Raise AttributeError, w)
  ∧ process_audio_message allowed_usernames env update w
    = (Raise AttributeError, w)
  ∧ reset_history allowed_usernames env update w = (Raise AttributeError, w).
Proof.
  intros Hmissing.
  unfold process_text_message, process_audio_message, reset_history,
    handle_allowed_usernames, bind.
  by rewrite (sender_missing update w Hmissing).
Qed.

Lemma handlers_need_a_sender_witness :
  message {| message := None |} = None
  ∧ reset_history [] friendly {| message := None |} init
    = (Raise AttributeError, init).
Proof.
  split; [reflexivity|].
  exact (proj2 (proj2 (handlers_need_a_sender [] friendly
                         {| message := None |} init (or_introl eq_refl)))).
Defined.




(** X19.  [reset_history] for an allowed sender empties the sender's
    history when the username is a key and makes no key when it is none;
    the dict is as before, and in a well-formed world so is every other
    username's history.  The confirmation is sent after the clear, so the
    history is empty even when sending it fails; when it is sent, the
    handler returns the dict. *)
Theorem reset_history_clears_sender
    (allowed_usernames : list str) (env : Env) (update : Update)
    (msg : Message) (user : User) (w : World) :
  message update = Some msg → from_user msg = Some user →
  is_allowed_user allowed_usernames (username user) = true →
  messages_list (reset_history allowed_usernames env update w).2
  = messages_list w
  ∧ history (reset_history allowed_usernames env update w).2 (username user)
    = (λ _, []) <$> messages_list w !! username user
  ∧ (wf w → ∀ other, other ≠ username user →
     history (reset_history allowed_usernames env update w).2 other
     = history w other)
  ∧ trace (reset_history allowed_usernames env update w).2
    = trace w
      ++ [LogInfo (py "Received message from " ++ username user);
          SendMessage (chat_id (chat msg)) (py "Messages history cleaned")]
  ∧ (∀ sent,
       send_message_outcome env
         (trace w ++ [LogInfo (py "Received message from " ++ username user)])
         (chat_id (chat msg)) (py "Messages history cleaned")
       = Ok sent →
       (reset_history allowed_usernames env update w).1
       = Ok (Some (messages_list w))).
Proof.
  intros Hmsg Huser Hallowed.
  set (w1 := recorded w (LogInfo (py "Received message from "
                                  ++ username user))).
  assert (Hrun :
    reset_history allowed_usernames env update w
    = (match
         send_message_outcome env (trace w1) (chat_id (chat msg))
           (py "Messages history cleaned")
       with
       | Ok _ => Ok (Some (messages_list w))
       | Raise e => Raise e
       end,
       recorded (clear_history (username user) w1).2
         (SendMessage (chat_id (chat msg)) (py "Messages history cleaned")))).
  { unfold reset_history, bind.
    rewrite (handle_allowed_usernames_run _ _ _ _ _ _ Hmsg Huser), Hallowed.
    cbn [negb]. fold w1. rewrite (sender_run _ _ _ _ Hmsg Huser).
    rewrite clear_history_run, (effective_chat_id_run _ _ _ Hmsg).
    unfold send_message, external. cbn [trace recorded messages_list].
    by destruct (send_message_outcome _ _ _ _). }
  rewrite Hrun. cbn [fst snd]. rewrite history_recorded.
  split; [by rewrite clear_history_run|]. split; [|split; [|split]].
  - rewrite clear_history_run. unfold history. simpl.
    destruct (messages_list w !! username user) as [l|] eqn:Hu; [simpl|done].
    unfold target. simpl. rewrite Hu. by rewrite lookup_insert_eq.
  - intros Hwf other Hother. rewrite history_recorded.
    by destruct (clear_history_other (username user) other w1 Hwf).
  - rewrite clear_history_run. simpl. by rewrite <- app_assoc.
  - intros sent Hsent. unfold w1, recorded. cbn [trace].
    by rewrite Hsent.
Qed.

(** ** The event classifier, call after call *)

Lemma filter_bot (self : DirectOrMentionInGroup.t) (update : Update) :
  DirectOrMentionInGroup.bot (DirectOrMentionInGroup.filter self update).2
  = DirectOrMentionInGroup.bot self.
Proof.
  unfold DirectOrMentionInGroup.filter.
  destruct (message update) as [msg|]; [|done].
  destruct (text msg) as [[|c msg_text]|]; [done| |done].
  unfold DirectOrMentionInGroup.resolve.
  by destruct (DirectOrMentionInGroup.username self) as [[|d name]|].
Qed.

Lemma filter_same_bot (self self' : DirectOrMentionInGroup.t) (update : Update) :
  memoized self → memoized self' →
  DirectOrMentionInGroup.bot self' = DirectOrMentionInGroup.bot self →
  (DirectOrMentionInGroup.filter self' update).1
  = (DirectOrMentionInGroup.filter self update).1.
Proof.
  intros Hself Hself' Hbot. unfold DirectOrMentionInGroup.filter.
  destruct (message update) as [msg|]; [|done].
  destruct (text msg) as [[|c msg_text]|]; [done| |done].
  destruct (resolve_memoized self Hself) as [Hname _].
  destruct (resolve_memoized self' Hself') as [Hname' _].
  destruct (DirectOrMentionInGroup.resolve self) as [name s1].
  destruct (DirectOrMentionInGroup.resolve self') as [name' s2].
  simpl in *. by rewrite Hname, Hname', Hbot.
Qed.

(** X20.  What the filter answers for an update does not depend on the
    updates it was asked about before: the handle it remembers from the
    first text message on is the bot's own, and it is never replaced by
    another. *)
Theorem filter_answer_is_stable
    (self : DirectOrMentionInGroup.t) (earlier : list Update)
    (update : Update) :
  memoized self →
  let self' :=
    foldl (λ s u, (DirectOrMentionInGroup.filter s u).2) self earlier in
  memoized self'
  ∧ DirectOrMentionInGroup.bot self' = DirectOrMentionInGroup.bot self
  ∧ (DirectOrMentionInGroup.filter self' update).1
    = (DirectOrMentionInGroup.filter self update).1.
Proof.
  intros Hself. cbv zeta.
  assert (Hfold :
    memoized (foldl (λ s u, (DirectOrMentionInGroup.filter s u).2) self
                earlier)
    ∧ DirectOrMentionInGroup.bot
        (foldl (λ s u, (DirectOrMentionInGroup.filter s u).2) self earlier)
      = DirectOrMentionInGroup.bot self).
  { revert self Hself. induction earlier as [|u earlier IH]; intros self Hself;
      simpl; [done|].
    destruct (IH _ (filter_memoized self u Hself)) as [Hm Hb].
    split; [done|]. by rewrite Hb, filter_bot. }
  destruct Hfold as [Hm Hb]. split; [done|]. split; [done|].
  by apply filter_same_bot.
Qed.

Lemma filter_answer_is_stable_witness :
  memoized (DirectOrMentionInGroup.__init__ gpt_bot)
  ∧ (DirectOrMentionInGroup.filter
       (DirectOrMentionInGroup.filter
          (DirectOrMentionInGroup.__init__ gpt_bot) hello).2 hey_bot).1
    = (DirectOrMentionInGroup.filter
         (DirectOrMentionInGroup.__init__ gpt_bot) hey_bot).1.
Proof.
  assert (Hself : memoized (DirectOrMentionInGroup.__init__ gpt_bot))
    by (by left).
  split; [exact Hself|].
  exact (proj2 (proj2 (filter_answer_is_stable
                         (DirectOrMentionInGroup.__init__ gpt_bot)
                         [hello] hey_bot Hself))).
Defined.

(** X21.  The filter the voice handler is registered with lets an update
    through only when its message has a text that is not empty: a message
    that is a voice recording and nothing else never reaches
    [process_audio_message]. *)
Theorem audio_handler_filter_needs_text
    (VOICE : Update → bool) (self : DirectOrMentionInGroup.t)
    (update : Update) :
  (audio_handler_filter VOICE self update).1 = true →
  ∃ msg c msg_text,
    message update = Some msg ∧ text msg = Some (c :: msg_text).
Proof.
  unfold audio_handler_filter, DirectOrMentionInGroup.filter.
  destruct (VOICE update); [|done].
  destruct (message update) as [msg|]; [|done].
  destruct (text msg) as [[|c msg_text]|] eqn:Htext; [done| |done].
  intros _. by exists msg, c, msg_text.
Qed.

Lemma audio_handler_filter_needs_text_witness :
  (audio_handler_filter (λ _, true)
     (DirectOrMentionInGroup.__init__ gpt_bot) hello).1 = true
  ∧ ∃ msg c msg_text,
      message hello = Some msg ∧ text msg = Some (c :: msg_text).
Proof.
  split; [reflexivity|].
  exact (audio_handler_filter_needs_text (λ _, true)
           (DirectOrMentionInGroup.__init__ gpt_bot) hello eq_refl).
Defined.

(** ** More properties at concrete inputs *)


Lemma text_handler_placeholder_failure_witness :
  is_allowed_user [] alice = true
  ∧ (process_text_message [] offline hello init).1 = Raise TelegramError
  ∧ messages_list (process_text_message [] offline hello init).2 = ∅.
Proof.
  split; [reflexivity|].
  destruct (text_handler_placeholder_failure [] offline hello
              (says alice private_chat (Some (py "Hello")))
              {| username := alice |} init TelegramError
              eq_refl eq_refl eq_refl eq_refl)
    as (Hrun & Hdict & _).
  rewrite Hrun. by split.
Defined.

Lemma text_handler_reply_without_text_witness :
  is_allowed_user [] alice = true
  ∧ effective_input
      (answers alice private_chat (Some (py "pong"))
         (says bob private_chat None)) = None
  ∧ (process_text_message [] friendly pong_to_photo init).1
    = Raise TypeError.
Proof.
  split; [reflexivity|]. split; [reflexivity|].
  by rewrite (text_handler_reply_without_text [] friendly pong_to_photo
                (answers alice private_chat (Some (py "pong"))
                   (says bob private_chat None))
                (says bob private_chat None)
                {| username := alice |} 1 init
                eq_refl eq_refl eq_refl eq_refl eq_refl eq_refl).
Defined.

Lemma long_quote_input :
  ∃ effective,
    effective_input
      (answers alice private_chat (Some (py "ok"))
         (says bob private_chat (Some (replicate 4096 65%N))))
    = Some effective
    ∧ len effective > 4096.
Proof. eexists. split; [reflexivity|]. by vm_compute. Qed.

Lemma text_handler_oversized_input_witness :
  is_allowed_user [] alice = true
  ∧ ∃ rest,
      trace (process_text_message [] friendly long_quote init).2
      = [LogInfo (py "Received message from " ++ alice);
         SendMessage 42 [129300%N];
         completion_request []]
        ++ rest.
Proof.
  split; [reflexivity|].
  destruct long_quote_input as (effective & Hinput & Hbig).
  exact (text_handler_oversized_input [] friendly long_quote
           (answers alice private_chat (Some (py "ok"))
              (says bob private_chat (Some (replicate 4096 65%N))))
           {| username := alice |} 1 init effective
           eq_refl eq_refl eq_refl eq_refl Hinput Hbig).
Defined.


Lemma reset_history_clears_sender_witness :
  is_allowed_user [] alice = true
  ∧ history
      (reset_history [] friendly hello
         (process_text_message [] friendly hello init).2).2 alice
    = Some [].
Proof.
  split; [reflexivity|].
  destruct (reset_history_clears_sender [] friendly hello
              (says alice private_chat (Some (py "Hello")))
              {| username := alice |}
              (process_text_message [] friendly hello init).2
              eq_refl eq_refl eq_refl)
    as (_ & Hhist & _).
  cbn [username] in Hhist. rewrite Hhist. by vm_compute.
Defined.

Lemma generate_gpt_response_raises_iff_witness :
  ChatCompletion_create_outcome interrupted (trace init) (previous init alice)
  = Raise KeyboardInterrupt
  ∧ is_Exception KeyboardInterrupt = false
  ∧ (generate_gpt_response interrupted alice init).1 = Raise KeyboardInterrupt.
Proof.
  split; [reflexivity|]. split; [reflexivity|].
  exact (proj2 (generate_gpt_response_raises_iff interrupted alice init
                  KeyboardInterrupt) (conj eq_refl eq_refl)).
Defined.
